(** * Shirk: the plug event kernel of [shirk.py]

    A shallow embedding of the hook registry, the plug lifecycle
    ([load_plug], [remove_plug], [shutdown], [connectionLost]) and the
    event dispatchers of the [Shirk] class, followed by the properties
    the specification states about them.

    Python objects that the kernel mutates in place ([self.plugs],
    [self.hooks]) live in one record that is threaded through every
    operation; an operation that raises still hands back the state it
    had reached, as Python leaves every mutation made before the raise
    in place. *)

From Stdlib Require Import Ascii String.
From stdpp Require Import gmap strings list fin_maps.

Local Open Scope string_scope.
Set Warnings "-clear-no-such-hyp".

(** ** Events

    [util.Event] is not part of the sources at hand; its constants are
    the eight names [shirk.py] uses. *)
Module Event.

Inductive t : Type :=
  | addressed | chanmsg | command | private
  | raw | userjoined | usercreated | userremoved.

#[global] Instance eq_dec : EqDecision t.
Proof. solve_decision. Defined.

Definition to_nat (e : t) : nat :=
  match e with
  | addressed => 0 | chanmsg => 1 | command => 2 | private => 3
  | raw => 4 | userjoined => 5 | usercreated => 6 | userremoved => 7
  end.

Definition of_nat (n : nat) : option t :=
  match n with
  | 0 => Some addressed | 1 => Some chanmsg | 2 => Some command
  | 3 => Some private | 4 => Some raw | 5 => Some userjoined
  | 6 => Some usercreated | 7 => Some userremoved
  | _ => None
  end.

#[global] Instance countable : Countable t.
Proof. apply (inj_countable to_nat of_nat). by intros []. Defined.

End Event.

(** What a plug may hand to [add_callback] as its [event] argument: one
    of the [Event] constants, or any other Python value (a typo, a
    constant of a later version), which is no key of [self.hooks]. *)
Inductive event_arg : Type :=
  | EvConst (e : Event.t)
  | EvOther (n : nat).

#[global] Instance event_arg_eq_dec : EqDecision event_arg.
Proof. solve_decision. Defined.

(** [Shirk._simple_events] *)
Definition _simple_events : list Event.t :=
  [Event.addressed; Event.chanmsg; Event.private;
   Event.userjoined; Event.usercreated; Event.userremoved].

(** ** Exceptions *)
Inductive exn : Type :=
  | KeyError
  | ImportError
  | AttributeError
  | RuntimeError      (* "Set changed size during iteration" *)
  | IndexError
  | OtherError (name : string).

#[global] Instance exn_eq_dec : EqDecision exn.
Proof. solve_decision. Defined.

(** ** Plugs

    A plug instance is a Python object: sets of plugs and the values of
    [self.plugs] compare by identity.  [plug_id] is that identity, drawn
    from an allocation counter when [module.Plug(...)] is evaluated;
    [plug_name] is the module the instance was made from. *)
Record plug : Type := Plug { plug_id : nat; plug_name : string }.

#[global] Instance plug_eq_dec : EqDecision plug.
Proof. solve_decision. Defined.

#[global] Instance plug_countable : Countable plug.
Proof.
  apply (inj_countable' (fun p => (plug_id p, plug_name p))
                        (fun q => Plug q.1 q.2)).
  by intros [].
Defined.

(** The interests a plug class declares (the class attributes
    [commands], [hooks] and [rawhooks] of [CorePlug], [AuthPlug] and
    [WigglyPlug]). *)
Record PlugClass : Type := {
  commands : list string;
  hooks : list event_arg;
  rawhooks : list string
}.

(** ** Kernel state *)
Record Config : Type := {
  cfg_nickname : string;
  cfg_cmd_prefix : string;
  cfg_plugs : list string
}.

(** [self.hooks] is one dictionary whose keys never change after
    [load_plugs]: [Event.raw] and [Event.command] map to dictionaries
    from a code or a command to a set of plugs, every other key maps to
    a set of plugs.  The three parts are kept apart here.

    [users] tells whether the attribute [self.users] exists, [sent] is
    what went out through [quit], [shuttingdown] is the factory's flag.
    [cleanups] is a ghost log: the instances whose [cleanup] was entered,
    oldest first. *)
Record Shirk : Type := MkShirk {
  config : Config;
  plugs : gmap string plug;
  hooks_command : gmap string (gset plug);
  hooks_raw : gmap string (gset plug);
  hooks_simple : gmap Event.t (gset plug);
  nickname : string;
  cmd_prefix : string;
  users : bool;
  shuttingdown : bool;
  sent : list string;
  next_id : nat;
  cleanups : list plug
}.

Definition with_plugs (f : gmap string plug -> gmap string plug) (s : Shirk) : Shirk :=
  MkShirk (config s) (f (plugs s)) (hooks_command s) (hooks_raw s) (hooks_simple s)
          (nickname s) (cmd_prefix s) (users s) (shuttingdown s) (sent s)
          (next_id s) (cleanups s).

Definition with_hooks_command
    (f : gmap string (gset plug) -> gmap string (gset plug)) (s : Shirk) : Shirk :=
  MkShirk (config s) (plugs s) (f (hooks_command s)) (hooks_raw s) (hooks_simple s)
          (nickname s) (cmd_prefix s) (users s) (shuttingdown s) (sent s)
          (next_id s) (cleanups s).

Definition with_hooks_raw
    (f : gmap string (gset plug) -> gmap string (gset plug)) (s : Shirk) : Shirk :=
  MkShirk (config s) (plugs s) (hooks_command s) (f (hooks_raw s)) (hooks_simple s)
          (nickname s) (cmd_prefix s) (users s) (shuttingdown s) (sent s)
          (next_id s) (cleanups s).

Definition with_hooks_simple
    (f : gmap Event.t (gset plug) -> gmap Event.t (gset plug)) (s : Shirk) : Shirk :=
  MkShirk (config s) (plugs s) (hooks_command s) (hooks_raw s) (f (hooks_simple s))
          (nickname s) (cmd_prefix s) (users s) (shuttingdown s) (sent s)
          (next_id s) (cleanups s).

Definition with_users (b : bool) (s : Shirk) : Shirk :=
  MkShirk (config s) (plugs s) (hooks_command s) (hooks_raw s) (hooks_simple s)
          (nickname s) (cmd_prefix s) b (shuttingdown s) (sent s)
          (next_id s) (cleanups s).

Definition with_shuttingdown (b : bool) (s : Shirk) : Shirk :=
  MkShirk (config s) (plugs s) (hooks_command s) (hooks_raw s) (hooks_simple s)
          (nickname s) (cmd_prefix s) (users s) b (sent s)
          (next_id s) (cleanups s).

Definition with_sent (f : list string -> list string) (s : Shirk) : Shirk :=
  MkShirk (config s) (plugs s) (hooks_command s) (hooks_raw s) (hooks_simple s)
          (nickname s) (cmd_prefix s) (users s) (shuttingdown s) (f (sent s))
          (next_id s) (cleanups s).

Definition with_next_id (n : nat) (s : Shirk) : Shirk :=
  MkShirk (config s) (plugs s) (hooks_command s) (hooks_raw s) (hooks_simple s)
          (nickname s) (cmd_prefix s) (users s) (shuttingdown s) (sent s)
          n (cleanups s).

Definition with_cleanups (f : list plug -> list plug) (s : Shirk) : Shirk :=
  MkShirk (config s) (plugs s) (hooks_command s) (hooks_raw s) (hooks_simple s)
          (nickname s) (cmd_prefix s) (users s) (shuttingdown s) (sent s)
          (next_id s) (f (cleanups s)).

(** ** The monad of kernel operations: state and exceptions *)
Inductive outcome (A : Type) : Type :=
  | Ok (a : A) (s : Shirk)
  | Raise (e : exn) (s : Shirk).
Arguments Ok {A} a s.
Arguments Raise {A} e s.

Definition M (A : Type) : Type := Shirk -> outcome A.

Definition ret {A} (a : A) : M A := fun s => Ok a s.

Definition bind {A B} (c : M A) (k : A -> M B) : M B :=
  fun s => match c s with
           | Ok a s' => k a s'
           | Raise e s' => Raise e s'
           end.

Definition raise {A} (e : exn) : M A := fun s => Raise e s.

Definition get : M Shirk := fun s => Ok s s.

Definition modify (f : Shirk -> Shirk) : M unit := fun s => Ok tt (f s).

(** [try: c  except e: h] *)
Definition try_except {A} (c : M A) (e : exn) (h : M A) : M A :=
  fun s => match c s with
           | Ok a s' => Ok a s'
           | Raise e' s' => if decide (e' = e) then h s' else Raise e' s'
           end.

#[global] Instance M_ret : MRet M := @ret.
#[global] Instance M_bind : MBind M := fun A B k c => bind c k.

(** [for x in l: body x] over a list fixed before the loop starts. *)
Fixpoint for_each {A} (l : list A) (body : A -> M unit) : M unit :=
  match l with
  | [] => ret tt
  | x :: l' => body x;; for_each l' body
  end.

(** The state an outcome carries, whether it returned or raised. *)
Definition state_of {A} (o : outcome A) : Shirk :=
  match o with Ok _ s => s | Raise _ s => s end.

Definition is_ok {A} (o : outcome A) : bool :=
  match o with Ok _ _ => true | Raise _ _ => false end.

(** ** The hook registry and the plug lifecycle *)
Section Kernel.

(** What [importlib.import_module('plugs.' + plugname)] finds: the class
    [module.Plug] of the module, or nothing ([ImportError]). *)
Variable modules : string -> option PlugClass.

(** Modelled from the spec: [plugbase.py], which defines [Plug.cleanup],
    is not among the sources.  The spec calls it the plug's cleanup step
    and allows it to fail; here it either returns ([None]) or raises, and
    does not touch the kernel's tables. *)
Variable cleanup : plug -> option exn.

(** [self.hooks[Event.command][cmd]] after [add_command]: the entry is
    created when missing, then [plug] is added to it.  Returns [None]. *)
Definition add_command (cmd : string) (p : plug) : M unit :=
  s ← get;
  (match hooks_command s !! cmd with
   | None => modify (with_hooks_command (<[cmd := ∅]>))
   | Some _ => ret tt
   end);;
  modify (with_hooks_command (alter (fun callbacks => callbacks ∪ {[p]}) cmd)).

(** [Event.raw] and [Event.command] are keys of [self.hooks] too, so the
    test [event not in self.hooks] lets them through; their values are
    dictionaries, and [.add] on a dictionary raises [AttributeError]. *)
Definition add_callback (event : event_arg) (p : plug) : M bool :=
  s ← get;
  match event with
  | EvOther _ => ret false
  | EvConst Event.raw | EvConst Event.command => raise AttributeError
  | EvConst e =>
      match hooks_simple s !! e with
      | None => ret false
      | Some callbacks =>
          modify (with_hooks_simple (<[e := callbacks ∪ {[p]}]>));;
          ret true
      end
  end.

Definition add_raw (cmd : string) (p : plug) : M unit :=
  s ← get;
  (match hooks_raw s !! cmd with
   | None => modify (with_hooks_raw (<[cmd := ∅]>))
   | Some _ => ret tt
   end);;
  modify (with_hooks_raw (alter (fun callbacks => callbacks ∪ {[p]}) cmd)).

(** Modelled from the spec: [Plug.hook_events] lives in [plugbase.py],
    which is not among the sources.  The spec calls it the plug's
    hook-registration step, which registers the declared category
    interests, command names and raw codes with the hook registry. *)
Definition hook_events (cls : PlugClass) (p : plug) : M unit :=
  for_each (hooks cls) (fun ev => add_callback ev p;; ret tt);;
  for_each (commands cls) (fun cmd => add_command cmd p);;
  for_each (rawhooks cls) (fun cmd => add_raw cmd p).

(** [module.Plug(self, self.startingup)]: a new object.  The
    constructor, which is in [plugbase.py], is taken to return. *)
Definition new_plug (plugname : string) : M plug :=
  fun s => Ok (Plug (next_id s) plugname) (with_next_id (S (next_id s)) s).

Definition load_plug (plugname : string) : M unit :=
  match modules plugname with
  | None => raise ImportError
  | Some cls =>
      p ← new_plug plugname;
      modify (with_plugs (<[plugname := p]>));;
      hook_events cls p
  end.

(** [plug.cleanup()] *)
Definition call_cleanup (p : plug) : M unit :=
  modify (with_cleanups (fun log => (log ++ [p])%list));;
  match cleanup p with
  | None => ret tt
  | Some e => raise e
  end.

(** [self.hooks[ev].discard(plug)] *)
Definition discard_simple (p : plug) (ev : Event.t) : M unit :=
  s ← get;
  match hooks_simple s !! ev with
  | None => raise KeyError
  | Some callbacks => modify (with_hooks_simple (<[ev := callbacks ∖ {[p]}]>))
  end.

Definition remove_plug (plugname : string) : M unit :=
  s ← get;
  match plugs s !! plugname with
  | None => raise KeyError
  | Some p =>
      call_cleanup p;;
      modify (with_hooks_command (fmap (fun callbacks => callbacks ∖ {[p]})));;
      modify (with_hooks_raw (fmap (fun callbacks => callbacks ∖ {[p]})));;
      for_each _simple_events (discard_simple p);;
      modify (with_plugs (delete plugname))
  end.

(** [CorePlug.cmd_reload] of [plugs/Core/core.py].  [allowed] is the
    outcome of the test [self.users[source].power >= 10] on the user
    directory; the log line and the reply to the user leave the kernel's
    tables alone. *)
Definition cmd_reload (allowed : bool) (argv : list string) : M unit :=
  if allowed then
    for_each (tail argv) (fun plugname =>
      try_except (remove_plug plugname) KeyError (ret tt);;
      try_except (load_plug plugname) ImportError (ret tt))
  else ret tt.

(** [load_plugs]: fresh tables, then every plug of the configuration;
    an [ImportError] is logged and the loop goes on. *)
Definition fresh_tables (s : Shirk) : Shirk :=
  with_hooks_simple (fun _ => foldr (fun ev h => <[ev := ∅]> h) ∅ _simple_events)
    (with_hooks_raw (fun _ => ∅)
      (with_hooks_command (fun _ => ∅)
        (with_plugs (fun _ => ∅) s))).

Definition load_plugs : M unit :=
  modify fresh_tables;;
  s ← get;
  for_each (cfg_plugs (config s))
    (fun plugname => try_except (load_plug plugname) ImportError (ret tt)).

(** [connectionMade]: the attributes the configuration gives, and a new
    user directory. *)
Definition connectionMade : M unit :=
  modify (fun s =>
    MkShirk (config s) (plugs s) (hooks_command s) (hooks_raw s) (hooks_simple s)
            (cfg_nickname (config s)) (cfg_cmd_prefix (config s)) true
            (shuttingdown s) (sent s) (next_id s) (cleanups s)).

(** [signedOn], as far as the kernel goes. *)
Definition signedOn : M unit := load_plugs.

(** [self.quit(msg)] of the IRC client: one line to the server. *)
Definition quit (msg : string) : M unit :=
  modify (with_sent (fun out => (out ++ ["QUIT :" +:+ msg])%list)).

(** The instances [self.plugs.iteritems()] yields, in its order. *)
Definition active (s : Shirk) : list plug := (map_to_list (plugs s)).*2.

Definition shutdown (msg : string) : M unit :=
  s ← get;
  for_each (active s) call_cleanup;;
  modify (with_shuttingdown true);;
  quit msg.

(** [del self.users] *)
Definition del_users : M unit :=
  s ← get;
  if users s then modify (with_users false) else raise AttributeError.

(** [connectionLost], on a kernel whose [load_plugs] has run (so that
    [self.plugs] exists). *)
Definition connectionLost : M unit :=
  try_except
    (s ← get;
     for_each (active s) call_cleanup;;
     del_users)
    AttributeError
    (ret tt).

End Kernel.

(** ** Text

    A message is a [unicode] string once [lineReceived] has decoded it; a
    character here is a code point below 256. *)
Definition isspace (c : ascii) : bool :=
  let n := nat_of_ascii c in
  (((9 <=? n) && (n <=? 13)) || ((28 <=? n) && (n <=? 32))
   || (n =? 133) || (n =? 160))%nat.

Fixpoint lstrip_chars (l : list ascii) : list ascii :=
  match l with
  | [] => []
  | c :: l' => if isspace c then lstrip_chars l' else l
  end.

Definition strip_chars (l : list ascii) : list ascii :=
  rev (lstrip_chars (rev (lstrip_chars l))).

(** [split_go cur l]: [cur] is the word being read, latest character
    first. *)
Fixpoint split_go (cur : list ascii) (l : list ascii) : list (list ascii) :=
  match l with
  | [] => match cur with [] => [] | _ => [rev cur] end
  | c :: l' =>
      if isspace c
      then match cur with [] => split_go [] l' | _ => rev cur :: split_go [] l' end
      else split_go (c :: cur) l'
  end.

(** [s.strip()] *)
Definition py_strip (s : string) : string :=
  string_of_list_ascii (strip_chars (list_ascii_of_string s)).

(** [s.split()] *)
Definition py_split (s : string) : list string :=
  map string_of_list_ascii (split_go [] (list_ascii_of_string s)).

(** [s[n:]] *)
Definition py_from (n : nat) (s : string) : string :=
  string_of_list_ascii (drop n (list_ascii_of_string s)).

(** [s.startswith(p)] *)
Definition py_startswith (s p : string) : bool := String.prefix p s.

(** [user.split('!', 1)[0]] *)
Fixpoint nick_of (user : string) : string :=
  match user with
  | EmptyString => EmptyString
  | String c rest => if Ascii.eqb c "!"%char then EmptyString else String c (nick_of rest)
  end.

(** ** Dispatch *)

(** The arguments of one handler call; the constructor names the method:
    [Command source target argv] stands for
    [handle_command(source, target, argv)], and so on. *)
Inductive payload : Type :=
  | Addressed (source target msg : string)
  | Chanmsg (source channel msg : string) (action : bool)
  | Command (source target : string) (argv : list string)
  | Private (source msg : string) (action : bool)
  | RawLine (command prefix : string) (params : list string)
  | Userjoined (nickname channel : string)
  | Usercreated (user : string)
  | Userremoved (user : string).

(** A dispatcher also reports the handler calls it made, in order. *)
Definition calls : Type := list (plug * payload).
Definition D (A : Type) : Type := Shirk -> calls * outcome A.

Definition retD {A} (a : A) : D A := fun s => ([], Ok a s).

Definition bindD {A B} (c : D A) (k : A -> D B) : D B :=
  fun s => match c s with
           | (tr, Ok a s') => let '(tr', o) := k a s' in ((tr ++ tr')%list, o)
           | (tr, Raise e s') => (tr, Raise e s')
           end.

Definition getD : D Shirk := fun s => ([], Ok s s).

#[global] Instance D_ret : MRet D := @retD.
#[global] Instance D_bind : MBind D := fun A B k c => bindD c k.

Section Dispatch.

(** The plugs' handler methods: what [p.handle_xxx(args)] does to the
    kernel.  A handler may call back into the kernel ([load_plug],
    [remove_plug], [shutdown], ...) and may raise. *)
Variable handle : plug -> payload -> M unit.

(** [for plug in to_call: plug.handle_xxx(args)] over a copy of the set:
    [to_call] is the copy in iteration order. *)
Fixpoint call_each (to_call : list plug) (args : payload) : D unit :=
  fun s =>
    match to_call with
    | [] => ([], Ok tt s)
    | p :: rest =>
        match handle p args s with
        | Ok _ s' => let '(tr, o) := call_each rest args s' in ((p, args) :: tr, o)
        | Raise e s' => ([(p, args)], Raise e s')
        end
    end.

(** [for plug in self.hooks[ev]: plug.handle_xxx(args)] over the set
    itself.  CPython's set iterator remembers the number of entries of
    the set when it is created and compares it with the set's current
    number before every step, the one that ends the loop included; a
    difference raises [RuntimeError].  The set object under a key of
    [self.hooks] is only mutated in place, so the iterator's set is the
    entry of [ev] in the current state.  [todo] holds the entries not
    yet visited; one discarded in the meantime is an emptied slot, which
    the iterator steps over.  Whether an entry added in the meantime
    (with the size restored by a discard) is visited depends on its hash
    slot; it is not visited here. *)
Fixpoint iter_live (ev : Event.t) (used : nat) (todo : list plug) (args : payload)
    : D unit :=
  fun s =>
    let live := default ∅ (hooks_simple s !! ev) in
    if decide (size live = used) then
      match todo with
      | [] => ([], Ok tt s)
      | p :: rest =>
          if decide (p ∈ live) then
            match handle p args s with
            | Ok _ s' => let '(tr, o) := iter_live ev used rest args s' in ((p, args) :: tr, o)
            | Raise e s' => ([(p, args)], Raise e s')
            end
          else iter_live ev used rest args s
      end
    else ([], Raise RuntimeError s).

Definition event_simple (ev : Event.t) (args : payload) : D unit :=
  fun s =>
    match hooks_simple s !! ev with
    | None => ([], Raise KeyError s)
    | Some callbacks => iter_live ev (size callbacks) (elements callbacks) args s
    end.

Definition event_addressed (source target msg : string) : D unit :=
  event_simple Event.addressed (Addressed source target msg).

Definition event_chanmsg (source channel msg : string) (action : bool) : D unit :=
  event_simple Event.chanmsg (Chanmsg source channel msg action).

Definition event_private (source msg : string) (action : bool) : D unit :=
  event_simple Event.private (Private source msg action).

Definition event_userjoined (nickname channel : string) : D unit :=
  event_simple Event.userjoined (Userjoined nickname channel).

Definition event_usercreated (user : string) : D unit :=
  event_simple Event.usercreated (Usercreated user).

Definition event_userremoved (user : string) : D unit :=
  event_simple Event.userremoved (Userremoved user).

Definition event_command (source target : string) (argv : list string) : D unit :=
  fun s =>
    match argv with
    | [] => ([], Raise IndexError s)
    | cmd :: _ =>
        match hooks_command s !! cmd with
        | None => ([], Ok tt s)
        | Some callbacks => call_each (elements callbacks) (Command source target argv) s
        end
    end.

Definition event_raw (command prefix : string) (params : list string) : D unit :=
  fun s =>
    match hooks_raw s !! command with
    | None => ([], Ok tt s)
    | Some callbacks => call_each (elements callbacks) (RawLine command prefix params) s
    end.

Definition privmsg (user target msg : string) : D unit :=
  let user := nick_of user in
  let msg := py_strip msg in
  s ← getD;
  (if decide (target = nickname s)
   then event_private user msg false
   else event_chanmsg user target msg false);;
  s ← getD;
  if py_startswith msg (cmd_prefix s) && (1 <? String.length msg)%nat then
    let argv := py_split (py_from (String.length (cmd_prefix s)) msg) in
    event_command user target argv
  else if py_startswith msg (nickname s) then
    let message := py_strip (py_from (String.length (nickname s) + 1) msg) in
    event_addressed user target message
  else mret tt.

Definition action (user target msg : string) : D unit :=
  let user := nick_of user in
  let msg := py_strip msg in
  s ← getD;
  if decide (target = nickname s)
  then event_private user msg true
  else event_chanmsg user target msg true.

End Dispatch.

(** * Notions the properties are stated with *)

(** A table after [p] has been registered under [k]. *)
Definition reg (k : string) (p : plug) (h : gmap string (gset plug))
    : gmap string (gset plug) :=
  <[k := default ∅ (h !! k) ∪ {[p]}]> h.

(** The category table after [add_callback event p] returned. *)
Definition reg_simple (p : plug) (h : gmap Event.t (gset plug)) (event : event_arg)
    : gmap Event.t (gset plug) :=
  match event with
  | EvConst e =>
      match h !! e with
      | Some callbacks => <[e := callbacks ∪ {[p]}]> h
      | None => h
      end
  | EvOther _ => h
  end.

(** A table after [discard(p)] on every entry. *)
Definition discard_all {K} `{Countable K} (p : plug) (h : gmap K (gset plug))
    : gmap K (gset plug) :=
  (fun callbacks => callbacks ∖ {[p]}) <$> h.

(** Every plug some entry of the three tables holds. *)
Definition hooked (s : Shirk) : gset plug :=
  (⋃ (map_to_list (hooks_command s)).*2)
  ∪ (⋃ (map_to_list (hooks_raw s)).*2)
  ∪ (⋃ (map_to_list (hooks_simple s)).*2).

(** The category table has the keys [load_plugs] gave it. *)
Definition tables_ready (s : Shirk) : Prop :=
  dom (hooks_simple s) = list_to_set _simple_events.

(** A class that lists no key of a keyed table among its category
    interests: its [hook_events] runs to the end. *)
Definition well_declared (cls : PlugClass) : Prop :=
  (EvConst Event.raw ∉ hooks cls) ∧ (EvConst Event.command ∉ hooks cls).

(** The tables after a whole list of registrations. *)
Definition reg_list (p : plug) (l : list string) (h : gmap string (gset plug))
    : gmap string (gset plug) :=
  foldl (fun h k => reg k p h) h l.

Definition reg_simple_list (p : plug) (l : list event_arg) (h : gmap Event.t (gset plug))
    : gmap Event.t (gset plug) :=
  foldl (reg_simple p) h l.

(** The category table after [discard(p)] on the entries of [l]. *)
Definition discard_events (p : plug) (l : list Event.t) (h : gmap Event.t (gset plug))
    : gmap Event.t (gset plug) :=
  foldl (fun h ev => alter (fun callbacks => callbacks ∖ {[p]}) ev h) h l.

(** Whether [event] is a key of the category table. *)
Definition recognised (event : event_arg) (s : Shirk) : bool :=
  match event with
  | EvConst e => bool_decide (is_Some (hooks_simple s !! e))
  | EvOther _ => false
  end.

(** The state [hook_events cls p] reaches when it runs to the end. *)
Definition hooked_up (cls : PlugClass) (p : plug) (s : Shirk) : Shirk :=
  with_hooks_raw (reg_list p (rawhooks cls))
    (with_hooks_command (reg_list p (commands cls))
      (with_hooks_simple (reg_simple_list p (hooks cls)) s)).

(** The state [remove_plug plugname] reaches when it runs to the end,
    [p] being the instance under [plugname]. *)
Definition removed (plugname : string) (p : plug) (s : Shirk) : Shirk :=
  with_plugs (delete plugname)
    (with_hooks_simple (discard_events p _simple_events)
      (with_hooks_raw (discard_all p)
        (with_hooks_command (discard_all p)
          (with_cleanups (fun log => (log ++ [p])%list) s)))).

(** ** A concrete kernel

    The three plugs of the repository with the interests their classes
    declare, and a few small ones: [Ping] and [Pong] answer the command
    [ping], [Echo] and [Logger] listen to channel messages, [Quiet]
    declares nothing. *)
Definition demo_modules (plugname : string) : option PlugClass :=
  if decide (plugname = "Core") then
    Some {| commands := ["plugs"; "commands"; "raw"; "quit"; "reload"];
            hooks := []; rawhooks := [] |}
  else if decide (plugname = "Auth") then
    Some {| commands := []; hooks := [EvConst Event.userjoined]; rawhooks := ["330"] |}
  else if decide (plugname = "Wiggly") then
    Some {| commands := ["approve"]; hooks := [EvConst Event.private]; rawhooks := [] |}
  else if decide (plugname = "Ping") then
    Some {| commands := ["ping"]; hooks := []; rawhooks := [] |}
  else if decide (plugname = "Pong") then
    Some {| commands := ["ping"]; hooks := []; rawhooks := [] |}
  else if decide (plugname = "Echo") then
    Some {| commands := []; hooks := [EvConst Event.chanmsg]; rawhooks := [] |}
  else if decide (plugname = "Logger") then
    Some {| commands := []; hooks := [EvConst Event.chanmsg]; rawhooks := [] |}
  else if decide (plugname = "Quiet") then
    Some {| commands := []; hooks := []; rawhooks := [] |}
  else None.

Definition demo_config : Config :=
  {| cfg_nickname := "shirk"; cfg_cmd_prefix := "!"; cfg_plugs := ["Core"; "Auth"] |}.

(** A [Shirk] object as the factory's [buildProtocol] hands it out. *)
Definition built (cfg : Config) : Shirk :=
  MkShirk cfg ∅ ∅ ∅ ∅ "" "" false false [] 0 [].

(** The kernel once connected, right after [load_plugs] has made its
    tables. *)
Definition boot (cfg : Config) : Shirk :=
  fresh_tables (state_of (connectionMade (built cfg))).

Definition kernel0 : Shirk := boot demo_config.

(** The same with a command prefix of two characters. *)
Definition kernel_long_prefix : Shirk :=
  boot {| cfg_nickname := "shirk"; cfg_cmd_prefix := "!!"; cfg_plugs := [] |}.

Definition cleanup_ok (p : plug) : option exn := None.
Definition cleanup_boom (p : plug) : option exn := Some (OtherError "boom").

(** [kernel0] after [load_plug "Core"]. *)
Definition kernel_core : Shirk := state_of (load_plug demo_modules "Core" kernel0).
Definition core0 : plug := Plug 0 "Core".

(** [kernel0] after [load_plug] of each name in turn. *)
Definition load_all (names : list string) (s : Shirk) : Shirk :=
  foldl (fun s plugname => state_of (load_plug demo_modules plugname s)) s names.

(** [Ping] alone. *)
Definition kernel_ping : Shirk := load_all ["Ping"] kernel0.
Definition ping0 : plug := Plug 0 "Ping".

(** [Ping], [Pong], [Echo], [Logger], [Auth] and [Core]. *)
Definition kernel_demo : Shirk :=
  load_all ["Ping"; "Pong"; "Echo"; "Logger"; "Auth"; "Core"] kernel0.
Definition pong1 : plug := Plug 1 "Pong".
Definition echo2 : plug := Plug 2 "Echo".
Definition logger3 : plug := Plug 3 "Logger".
Definition auth4 : plug := Plug 4 "Auth".
Definition core5 : plug := Plug 5 "Core".

(** Handlers that do nothing. *)
Definition handle_nothing (p : plug) (args : payload) : M unit := mret tt.

(** Handlers of which the one of [Ping] and the one of [Auth] raise. *)
Definition handle_faulty (p : plug) (args : payload) : M unit :=
  if decide (plug_name p = "Ping" \/ plug_name p = "Auth")
  then raise (OtherError "fault") else mret tt.

(** The command handler of [Core] for [reload], called by an operator;
    every other handler does nothing. *)
Definition handle_core (p : plug) (args : payload) : M unit :=
  match args with
  | Command source target ("reload" :: rest) =>
      if decide (plug_name p = "Core")
      then cmd_reload demo_modules cleanup_ok true ("reload" :: rest)
      else mret tt
  | _ => mret tt
  end.

(** Handlers of which the one of [Echo] and the one of [Ping] unload
    their own plug, as a handler may. *)
Definition handle_unload_self (p : plug) (args : payload) : M unit :=
  if decide (plug_name p = "Echo" \/ plug_name p = "Ping")
  then remove_plug cleanup_ok (plug_name p) else mret tt.

(** How often the cleanup step of [p] has been entered. *)
Definition cleanup_count (p : plug) (s : Shirk) : nat :=
  List.length (filter (fun q => q = p) (cleanups s)).

(** Every instance of the active plug set sits under the name of its
    module, as [load_plug] puts it there. *)
Definition names_match (s : Shirk) : Prop :=
  forall plugname p, plugs s !! plugname = Some p -> plug_name p = plugname.

(** ** Runs of [load_plug] and [remove_plug] *)
Inductive op : Type :=
  | Load (plugname : string)
  | Remove (plugname : string).

Section Runs.

Variable modules : string -> option PlugClass.
Variable cleanup : plug -> option exn.

(** The state one operation leaves, whether it returned or raised. *)
Definition run_op (o : op) (s : Shirk) : Shirk :=
  match o with
  | Load plugname => state_of (load_plug modules plugname s)
  | Remove plugname => state_of (remove_plug cleanup plugname s)
  end.

Definition run (ops : list op) (s : Shirk) : Shirk :=
  foldl (fun s o => run_op o s) s ops.

(** No [load_plug] of the run is for a name that is active when it is
    called. *)
Fixpoint loads_fresh (ops : list op) (s : Shirk) : Prop :=
  match ops with
  | [] => True
  | o :: rest =>
      match o with
      | Load plugname => plugs s !! plugname = None
      | Remove _ => True
      end
      /\ loads_fresh rest (run_op o s)
  end.


End Runs.

(** A table that differs from [h] by [p] at most. *)
Definition grows_by {K} `{Countable K} (p : plug) (h h' : gmap K (gset plug)) : Prop :=
  dom h ⊆ dom h'
  /\ forall k callbacks' q, h' !! k = Some callbacks' -> q ∈ callbacks' ->
       q = p \/ exists callbacks, h !! k = Some callbacks /\ q ∈ callbacks.

(** What [hook_events] of a new instance [p] keeps while it runs: the
    active plug set and the allocation counter, the keys of the category
    table, and that the tables hold [p] and the plugs of [before] at
    most. *)
Definition at_most_added (p : plug) (pl : gmap string plug) (n : nat)
    (before : gset plug) (s : Shirk) : Prop :=
  plugs s = pl /\ next_id s = n /\ tables_ready s /\ hooked s ⊆ before ∪ {[p]}.

(** What every run keeps. *)
Definition kernel_inv (s : Shirk) : Prop :=
  tables_ready s
  /\ (forall q, q ∈ hooked s -> plugs s !! plug_name q = Some q)
  /\ (forall plugname q, plugs s !! plugname = Some q ->
        plug_name q = plugname /\ plug_id q < next_id s).


(** * More of the code *)

(** [kernel0] with [Ping] and [Pong]. *)
Definition kernel_ping_pong : Shirk := load_all ["Ping"; "Pong"] kernel0.


(** ** Joins *)

(** [s.split(sep, 1)]: the text before the first [sep], and the text
    after it when there is a [sep]. *)
Fixpoint split_once (sep : ascii) (s : string) : string * option string :=
  match s with
  | EmptyString => (EmptyString, None)
  | String c rest =>
      if Ascii.eqb c sep then (EmptyString, Some rest)
      else let '(front, back) := split_once sep rest in (String c front, back)
  end.

Definition raiseD {A} (e : exn) : D A := fun s => ([], Raise e s).

(** A kernel operation inside a dispatcher: it calls no handler itself. *)
Definition liftD {A} (c : M A) : D A := fun s => ([], c s).

(** [sendLine]: one line to the server. *)
Definition sendLine (line : string) : M unit :=
  modify (with_sent (fun out => (out ++ [line])%list)).

(** [joined]: the bot has joined [channel] and asks who is there. *)
Definition joined (channel : string) : M unit :=
  sendLine ("WHO " +:+ channel).

Section Joins.

Variable handle : plug -> payload -> M unit.

(** [self.users.user_joined(nickname, username, hostmask, channel)]:
    [users.py] is not among the sources, and the user directory may fire
    events of its own ([event_usercreated]); whatever it does is this
    parameter. *)
Variable user_joined : string -> string -> string -> string -> D unit.

(** Unpacking [a, b = s.split(sep, 1)] raises [ValueError] when there
    is no [sep] in [s]. *)
Definition userJoined (user channel : string) : D unit :=
  match split_once "!" user with
  | (_, None) => raiseD (OtherError "ValueError")
  | (nickname, Some rest) =>
      match split_once "@" rest with
      | (_, None) => raiseD (OtherError "ValueError")
      | (username, Some hostmask) =>
          user_joined nickname username hostmask channel;;
          event_userjoined handle nickname channel
      end
  end.

(** [params[-1]] raises [IndexError] on an empty list. *)
Definition irc_JOIN (prefix : string) (params : list string) : D unit :=
  let nick := nick_of prefix in
  match last params with
  | None => raiseD IndexError
  | Some channel =>
      s ← getD;
      if decide (nick = nickname s)
      then liftD (joined channel)
      else userJoined prefix channel
  end.

(** [params[i]] *)
Definition param (params : list string) (i : nat) : D string :=
  match params !! i with
  | Some x => mret x
  | None => raiseD IndexError
  end.

Definition irc_RPL_WHOREPLY (prefix : string) (params : list string) : D unit :=
  nickname ← param params 5;
  username ← param params 2;
  hostmask ← param params 3;
  channel ← param params 1;
  user_joined nickname username hostmask channel;;
  nickname ← param params 5;
  channel ← param params 1;
  event_userjoined handle nickname channel.

End Joins.

(** ** The [Wiggly] plug: signing users up

    [plugs/Wiggly/wiggly.py].  A user is known by the [uid] of its
    [User] object, a conversation by the identity of its [Interro]
    object.  [users.py], [interro.py] and [plugbase.py] are not among
    the sources: the user directory is a parameter, a conversation is
    taken to be made and started without failing, and [cmd_approve] is
    the method behind its [plugbase.level(10)] decorator. *)
Module Wiggly.

(** [self.signups[uid]]: a dictionary with the key ['approvals'] and,
    once a conversation has been made for the user, the key ['convo']. *)
Record signup : Type := Signup {
  approvals : gset nat;
  convo : option nat
}.

(** [started] is a ghost log of the conversations [convo.start()] was
    called on, [notices] holds what went out through [core.notice]: the
    nickname it went to and the text. *)
Record t : Type := State {
  signups : gmap nat signup;
  next_convo : nat;
  started : list nat;
  notices : list (string * string)
}.

Inductive result (A : Type) : Type :=
  | Done (a : A) (st : t)
  | Fail (e : exn) (st : t).
Arguments Done {A} a st.
Arguments Fail {A} e st.

Definition state_of {A} (r : result A) : t :=
  match r with Done _ st => st | Fail _ st => st end.

(** [WigglyPlug.approval_threshold] *)
Definition approval_threshold : nat := 2.

(** [load]: [self.signups = {}] *)
Definition loaded : t := State ∅ 0 [] [].

Section Plug.

(** [self.users.by_nick(nick)]: the [uid] of the user, or [None]. *)
Variable by_nick : string -> option nat.

(** [self.users.by_uid(uid)]: the nickname of the user, or [None]. *)
Variable by_uid : nat -> option string.

(** [approve(user, operator)]; [operator.uid] on [None] raises
    [AttributeError]. *)
Definition approve (user operator : option nat) (st : t) : result unit :=
  match user with
  | None => Done tt st
  | Some uid =>
      match operator with
      | None => Fail AttributeError st
      | Some op =>
          let sg :=
            match signups st !! uid with
            | None => Signup {[op]} None
            | Some sg => Signup (approvals sg ∪ {[op]}) (convo sg)
            end in
          if decide (approval_threshold <= size (approvals sg)) then
            Done tt (State (<[uid := Signup (approvals sg) (Some (next_convo st))]>
                              (signups st))
                           (S (next_convo st))
                           (started st ++ [next_convo st])%list
                           (notices st))
          else
            Done tt (State (<[uid := sg]> (signups st))
                           (next_convo st) (started st) (notices st))
      end
  end.

(** The loop at the end of [cmd_approve]: signups of users the
    directory no longer knows are deleted. *)
Definition clean_up (st : t) : t :=
  State (filter (fun entry => is_Some (by_uid entry.1)) (signups st))
        (next_convo st) (started st) (notices st).

Definition cmd_approve (source : string) (argv : list string) (st : t) : result unit :=
  match argv with
  | _ :: nick :: _ =>
      match approve (by_nick nick) (by_nick source) st with
      | Done _ st' => Done tt (clean_up st')
      | Fail e st' => Fail e st'
      end
  | _ => Done tt st
  end.

(** What [handle_private] does with a message: nothing, or hand it to
    a conversation ([convo.answer(msg)]). *)
Inductive answered : Type :=
  | NotForUs
  | Answer (conversation : nat) (msg : string).

(** [self.signups[user.uid]['convo']] raises [KeyError] when the signup
    has no conversation yet. *)
Definition handle_private (source msg : string) (st : t) : result answered :=
  match by_nick source with
  | None => Done NotForUs st
  | Some uid =>
      match signups st !! uid with
      | None => Done NotForUs st
      | Some sg =>
          match convo sg with
          | None => Fail KeyError st
          | Some c => Done (Answer c msg) st
          end
      end
  end.

(** The loop of [convo_complete] over the approving operators: one that
    is still online gets a notice; [self.users.by_uid(uid).nickname]
    raises [AttributeError] when the user who signed up is gone. *)
Fixpoint notify (uid : nat) (message : string) (ops : list nat) (st : t) : result unit :=
  match ops with
  | [] => Done tt st
  | op :: rest =>
      match by_uid op with
      | None => notify uid message rest st
      | Some operator =>
          match by_uid uid with
          | None => Fail AttributeError st
          | Some user =>
              notify uid message rest
                (State (signups st) (next_convo st) (started st)
                       (notices st ++ [(operator, user +:+ message)])%list)
          end
      end
  end.

(** [convo_complete(uid, results)]; [tos] is [results['TOS']].
    [process_results] reports to a channel and returns [True], so the
    third message of the source is never chosen. *)
Definition convo_complete (uid : nat) (tos : bool) (st : t) : result unit :=
  let message :=
    if tos then " has successfully registered an account."
    else " did not agree to the TOS." in
  match signups st !! uid with
  | None => Fail KeyError st
  | Some sg =>
      match notify uid message (elements (approvals sg)) st with
      | Done _ st' =>
          Done tt (State (delete uid (signups st')) (next_convo st')
                         (started st') (notices st'))
      | Fail e st' => Fail e st'
      end
  end.

End Plug.

(** What the plug's state can become: it is loaded, then operators
    approve and conversations complete, with the user directory as it
    is at each call. *)
Inductive reachable : t -> Prop :=
  | reach_loaded : reachable loaded
  | reach_cmd_approve by_nick by_uid source argv st :
      reachable st -> reachable (state_of (cmd_approve by_nick by_uid source argv st))
  | reach_convo_complete by_uid uid tos st :
      reachable st -> reachable (state_of (convo_complete by_uid uid tos st)).

(** Every signup with a conversation has approvals enough. *)
Definition approved_enough (st : t) : Prop :=
  forall uid sg, signups st !! uid = Some sg -> is_Some (convo sg) ->
    approval_threshold <= size (approvals sg).

End Wiggly.

(** A user directory that takes note and fires no event. *)
Definition directory_quiet (nickname username hostmask channel : string) : D unit :=
  mret tt.

(** A user directory for the examples: three users online. *)
Definition demo_by_nick (nick : string) : option nat :=
  if decide (nick = "alice") then Some 1
  else if decide (nick = "bob") then Some 2
  else if decide (nick = "carol") then Some 3
  else None.

Definition demo_by_uid (uid : nat) : option string :=
  match uid with
  | 1 => Some "alice"
  | 2 => Some "bob"
  | 3 => Some "carol"
  | _ => None
  end.

(** [alice] and then [bob] have approved [carol]. *)
Definition demo_signed_up : Wiggly.t :=
  Wiggly.state_of
    (Wiggly.cmd_approve demo_by_nick demo_by_uid "bob" ["approve"; "carol"]
       (Wiggly.state_of
          (Wiggly.cmd_approve demo_by_nick demo_by_uid "alice" ["approve"; "carol"]
             Wiggly.loaded))).

(** * Properties *)

Local Open Scope list_scope.

(** ** Unfolding the monads *)

Ltac munfold :=
  unfold mbind, mret, M_bind, M_ret, D_bind, D_ret, bind, ret, bindD, retD,
         get, getD, modify, raise, try_except in *.

Ltac by_cases_decide :=
  repeat (match goal with
          | |- context [decide ?P] => destruct (decide P)
          end);
  simplify_eq/=; try done; try (exfalso; set_solver).


Lemma state_eta (s : Shirk) :
  MkShirk (config s) (plugs s) (hooks_command s) (hooks_raw s) (hooks_simple s)
          (nickname s) (cmd_prefix s) (users s) (shuttingdown s) (sent s)
          (next_id s) (cleanups s) = s.
Proof. by destruct s. Qed.

Lemma bind_ok {A B} (c : M A) (k : A -> M B) s a s' :
  c s = Ok a s' -> (c ≫= k) s = k a s'.
Proof. munfold. by intros ->. Qed.

Lemma bind_raise {A B} (c : M A) (k : A -> M B) s e s' :
  c s = Raise e s' -> (c ≫= k) s = Raise e s'.
Proof. munfold. by intros ->. Qed.

Lemma for_each_app {A} (l1 l2 : list A) (body : A -> M unit) s :
  for_each (l1 ++ l2) body s =
  match for_each l1 body s with
  | Ok _ s' => for_each l2 body s'
  | Raise e s' => Raise e s'
  end.
Proof.
  revert s. induction l1 as [|x l1 IH]; intros s; simpl; [done|].
  munfold. destruct (body x s); [apply IH | done].
Qed.

(** A loop whose body always returns, with a known effect on the state. *)
Lemma for_each_pure {A} (P : Shirk -> Prop) (l : list A) (body : A -> M unit)
    (f : Shirk -> A -> Shirk) s :
  (forall x s, x ∈ l -> P s -> body x s = Ok tt (f s x) /\ P (f s x)) ->
  P s ->
  for_each l body s = Ok tt (foldl f s l).
Proof.
  revert s. induction l as [|x l IH]; intros s Hbody Hs; simpl; [done|].
  destruct (Hbody x s) as [Hx HP]; [apply elem_of_cons; auto | done |].
  munfold. rewrite Hx. apply IH; [|done].
  intros y s' Hy. apply Hbody. apply elem_of_cons; auto.
Qed.

(** A loop keeps what every run of its body keeps, raise or not. *)
Lemma for_each_keeps {A} (P : Shirk -> Prop) (l : list A) (body : A -> M unit) s :
  (forall x s, x ∈ l -> P s -> P (state_of (body x s))) ->
  P s -> P (state_of (for_each l body s)).
Proof.
  revert s. induction l as [|x l IH]; intros s Hbody Hs; simpl; [done|].
  munfold. pose proof (Hbody x s ltac:(apply elem_of_cons; auto) Hs) as Hx.
  destruct (body x s) as [[] s'|e s']; simpl in *; [|done].
  apply IH; [|done]. intros y s'' Hy. apply Hbody. apply elem_of_cons; auto.
Qed.

(** ** Closed forms of the registry operations *)
Section RegistryFacts.

Lemma add_command_eq cmd p s :
  add_command cmd p s = Ok tt (with_hooks_command (reg cmd p) s).
Proof.
  unfold add_command, reg. munfold.
  destruct (hooks_command s !! cmd) as [callbacks|] eqn:E; simpl;
    unfold with_hooks_command; simpl; do 2 f_equal; rewrite ?E; simpl.
  - apply map_eq; intros k. rewrite lookup_alter, lookup_insert.
    destruct (decide (cmd = k)) as [<-|]; by rewrite ?E.
  - by rewrite alter_insert_eq.
Qed.

Lemma add_raw_eq cmd p s :
  add_raw cmd p s = Ok tt (with_hooks_raw (reg cmd p) s).
Proof.
  unfold add_raw, reg. munfold.
  destruct (hooks_raw s !! cmd) as [callbacks|] eqn:E; simpl;
    unfold with_hooks_raw; simpl; do 2 f_equal; rewrite ?E; simpl.
  - apply map_eq; intros k. rewrite lookup_alter, lookup_insert.
    destruct (decide (cmd = k)) as [<-|]; by rewrite ?E.
  - by rewrite alter_insert_eq.
Qed.

Lemma reg_lookup k p h k' :
  reg k p h !! k' =
  if decide (k = k') then Some (default ∅ (h !! k) ∪ {[p]}) else h !! k'.
Proof. unfold reg. by rewrite lookup_insert. Qed.



Lemma reg_simple_lookup p h event e :
  reg_simple p h event !! e =
  if decide (event = EvConst e) then (fun callbacks => callbacks ∪ {[p]}) <$> h !! e
  else h !! e.
Proof.
  destruct event as [e'|n]; cbn [reg_simple]; [|by_cases_decide].
  destruct (decide (EvConst e' = EvConst e)) as [[= <-]|Hne].
  - destruct (h !! e') eqn:E; simpl; [by rewrite lookup_insert_eq | done].
  - destruct (h !! e') eqn:E; [|done].
    rewrite lookup_insert_ne; [done | congruence].
Qed.


Lemma add_callback_eq event p s :
  event ≠ EvConst Event.raw -> event ≠ EvConst Event.command ->
  add_callback event p s =
  Ok (recognised event s) (with_hooks_simple (fun h => reg_simple p h event) s).
Proof.
  intros Hraw Hcmd. destruct s as [cfg pl hc hr hs nick pre us sd out nid cl].
  unfold add_callback, recognised, with_hooks_simple. munfold.
  destruct event as [e|n]; simpl; [|done].
  destruct e; try done; by destruct (hs !! _).
Qed.

Lemma discard_simple_eq p ev s :
  is_Some (hooks_simple s !! ev) ->
  discard_simple p ev s =
  Ok tt (with_hooks_simple (alter (fun callbacks => callbacks ∖ {[p]}) ev) s).
Proof.
  intros [callbacks E]. unfold discard_simple, with_hooks_simple. munfold.
  rewrite E. simpl. do 2 f_equal.
  apply map_eq; intros k. rewrite lookup_alter, lookup_insert.
  destruct (decide (ev = k)) as [<-|]; by rewrite ?E.
Qed.

Lemma discard_events_lookup p l h ev :
  discard_events p l h !! ev =
  if decide (ev ∈ l) then (fun callbacks => callbacks ∖ {[p]}) <$> h !! ev
  else h !! ev.
Proof.
  unfold discard_events. revert h. induction l as [|e l IH]; intros h; cbn [foldl].
  - by_cases_decide.
  - rewrite IH, lookup_alter. by_cases_decide.
    destruct (h !! ev); simpl; [|done]. f_equal. set_solver.
Qed.

Lemma discard_events_dom p l h : dom (discard_events p l h) = dom h.
Proof.
  apply set_eq; intros ev. rewrite !elem_of_dom, discard_events_lookup.
  destruct (decide (ev ∈ l)); [|done]. by rewrite fmap_is_Some.
Qed.

Lemma foldl_with_hooks_command p l s :
  foldl (fun s c => with_hooks_command (reg c p) s) s l =
  with_hooks_command (reg_list p l) s.
Proof.
  unfold reg_list. revert s. induction l as [|c l IH]; intros s; simpl.
  - by destruct s.
  - by rewrite IH.
Qed.

Lemma foldl_with_hooks_raw p l s :
  foldl (fun s c => with_hooks_raw (reg c p) s) s l =
  with_hooks_raw (reg_list p l) s.
Proof.
  unfold reg_list. revert s. induction l as [|c l IH]; intros s; simpl.
  - by destruct s.
  - by rewrite IH.
Qed.

Lemma foldl_with_hooks_simple p l s :
  foldl (fun s ev => with_hooks_simple (fun h => reg_simple p h ev) s) s l =
  with_hooks_simple (reg_simple_list p l) s.
Proof.
  unfold reg_simple_list. revert s. induction l as [|c l IH]; intros s; simpl.
  - by destruct s.
  - by rewrite IH.
Qed.

Lemma foldl_discard p l s :
  foldl (fun s ev =>
           with_hooks_simple (alter (fun callbacks => callbacks ∖ {[p]}) ev) s) s l =
  with_hooks_simple (discard_events p l) s.
Proof.
  unfold discard_events. revert s. induction l as [|c l IH]; intros s; simpl.
  - by destruct s.
  - by rewrite IH.
Qed.

Lemma hook_events_eq cls p s :
  well_declared cls -> hook_events cls p s = Ok tt (hooked_up cls p s).
Proof.
  intros [Hraw Hcmd]. unfold hook_events, hooked_up.
  erewrite bind_ok; last first.
  { apply (for_each_pure (fun _ => True)); [|done].
    intros ev s' Hev _. split; [|done]. munfold.
    rewrite add_callback_eq by (intros ->; done). reflexivity. }
  rewrite foldl_with_hooks_simple.
  erewrite bind_ok; last first.
  { apply (for_each_pure (fun _ => True)); [|done].
    intros c s' _ _. split; [apply add_command_eq | done]. }
  rewrite foldl_with_hooks_command.
  erewrite (for_each_pure (fun _ => True)); [|intros c s' _ _; split; [apply add_raw_eq|done]|done].
  by rewrite foldl_with_hooks_raw.
Qed.

End RegistryFacts.

(** ** Closed forms of the lifecycle operations *)
Section LifecycleFacts.

Variable modules : string -> option PlugClass.
Variable cleanup : plug -> option exn.

Lemma load_plug_import_error plugname s :
  modules plugname = None -> load_plug modules plugname s = Raise ImportError s.
Proof. intros H. unfold load_plug. by rewrite H. Qed.

Lemma load_plug_eq plugname cls s :
  modules plugname = Some cls -> well_declared cls ->
  load_plug modules plugname s =
  Ok tt (hooked_up cls (Plug (next_id s) plugname)
           (with_plugs (<[plugname := Plug (next_id s) plugname]>)
              (with_next_id (S (next_id s)) s))).
Proof.
  intros Hm Hwd. unfold load_plug. rewrite Hm. unfold new_plug. munfold.
  by rewrite hook_events_eq.
Qed.

Lemma call_cleanup_eq p s :
  call_cleanup cleanup p s =
  match cleanup p with
  | None => Ok tt (with_cleanups (fun log => (log ++ [p])%list) s)
  | Some e => Raise e (with_cleanups (fun log => (log ++ [p])%list) s)
  end.
Proof. unfold call_cleanup. munfold. by destruct (cleanup p). Qed.

Lemma remove_plug_missing plugname s :
  plugs s !! plugname = None -> remove_plug cleanup plugname s = Raise KeyError s.
Proof. intros H. unfold remove_plug. munfold. by rewrite H. Qed.

Lemma remove_plug_cleanup_raises plugname p e s :
  plugs s !! plugname = Some p -> cleanup p = Some e ->
  remove_plug cleanup plugname s =
  Raise e (with_cleanups (fun log => (log ++ [p])%list) s).
Proof.
  intros H Hc. unfold remove_plug. munfold. rewrite H.
  by rewrite call_cleanup_eq, Hc.
Qed.

Lemma remove_plug_eq plugname p s :
  plugs s !! plugname = Some p -> cleanup p = None ->
  (forall ev, ev ∈ _simple_events -> is_Some (hooks_simple s !! ev)) ->
  remove_plug cleanup plugname s = Ok tt (removed plugname p s).
Proof.
  intros H Hc Hkeys. unfold remove_plug, removed. munfold. rewrite H.
  rewrite call_cleanup_eq, Hc.
  erewrite (for_each_pure
              (fun s' => forall ev, ev ∈ _simple_events -> is_Some (hooks_simple s' !! ev))).
  - by rewrite foldl_discard.
  - intros ev s' Hev Hs'. split; [by apply discard_simple_eq, Hs'|].
    intros ev' Hev'. simpl. rewrite lookup_alter.
    destruct (decide (ev = ev')) as [<-|]; [|by apply Hs'].
    apply fmap_is_Some. by apply Hs'.
  - done.
Qed.

Lemma remove_plug_ok_gone plugname s s1 :
  remove_plug cleanup plugname s = Ok tt s1 -> plugs s1 !! plugname = None.
Proof.
  unfold remove_plug. munfold.
  destruct (plugs s !! plugname) as [p|]; [|done].
  destruct (call_cleanup cleanup p s) as [[] s2|]; [|done].
  destruct (for_each _ _ _) as [[] s3|]; [|done].
  intros [= <-]. simpl. apply lookup_delete_eq.
Qed.

End LifecycleFacts.




(** ** Removing a name that is not loaded *)

(** C5: for every kernel state and every name that is not in the active
    plug set, [remove_plug] raises [KeyError] (the spec's NotFound) and
    leaves the whole state, so the plug set and the three hook tables,
    as it was; hence a second [remove_plug] of a name just removed raises
    [KeyError] and leaves the state reached by the first. *)
Theorem remove_plug_unknown_name cleanup plugname s :
  (plugs s !! plugname = None ->
   remove_plug cleanup plugname s = Raise KeyError s)
  /\ (forall s1, remove_plug cleanup plugname s = Ok tt s1 ->
        remove_plug cleanup plugname s1 = Raise KeyError s1).
Proof.
  split.
  - apply remove_plug_missing.
  - intros s1 Hfirst. apply remove_plug_missing.
    by apply (remove_plug_ok_gone cleanup plugname s).
Qed.

Lemma remove_plug_unknown_name_witness :
  remove_plug cleanup_ok "Ghost" kernel_core = Raise KeyError kernel_core
  /\ remove_plug cleanup_ok "Core" (removed "Core" core0 kernel_core)
     = Raise KeyError (removed "Core" core0 kernel_core).
Proof.
  split.
  - apply (proj1 (remove_plug_unknown_name cleanup_ok "Ghost" kernel_core)).
    vm_compute. reflexivity.
  - apply (proj2 (remove_plug_unknown_name cleanup_ok "Core" kernel_core)).
    vm_compute. reflexivity.
Defined.

(** ** Who is in the tables *)

Lemma elem_of_table {K} `{Countable K} (p : plug) (m : gmap K (gset plug)) :
  p ∈ ⋃ (map_to_list m).*2 <-> exists k callbacks, m !! k = Some callbacks /\ p ∈ callbacks.
Proof.
  rewrite elem_of_union_list. split.
  - intros (callbacks & Hin & Hp). apply list_elem_of_fmap in Hin as ([k c] & -> & Hkc).
    apply elem_of_map_to_list in Hkc. eauto.
  - intros (k & callbacks & Hk & Hp). exists callbacks. split; [|done].
    apply list_elem_of_fmap. exists (k, callbacks). split; [done|].
    by apply elem_of_map_to_list.
Qed.

Lemma elem_of_hooked p s :
  p ∈ hooked s <->
  (exists cmd callbacks, hooks_command s !! cmd = Some callbacks /\ p ∈ callbacks)
  \/ (exists cmd callbacks, hooks_raw s !! cmd = Some callbacks /\ p ∈ callbacks)
  \/ (exists ev callbacks, hooks_simple s !! ev = Some callbacks /\ p ∈ callbacks).
Proof. unfold hooked. rewrite !elem_of_union, !elem_of_table. tauto. Qed.

Lemma tables_ready_keys s ev :
  tables_ready s -> (ev ∈ _simple_events <-> is_Some (hooks_simple s !! ev)).
Proof.
  unfold tables_ready. intros Hdom.
  by rewrite <-elem_of_dom, Hdom, elem_of_list_to_set.
Qed.

Lemma discard_all_lookup {K} `{Countable K} p (h : gmap K (gset plug)) k :
  discard_all p h !! k = (fun callbacks => callbacks ∖ {[p]}) <$> h !! k.
Proof. unfold discard_all. apply lookup_fmap. Qed.

Lemma removed_hooks_command plugname p s :
  hooks_command (removed plugname p s) = discard_all p (hooks_command s).
Proof. done. Qed.

Lemma removed_hooks_raw plugname p s :
  hooks_raw (removed plugname p s) = discard_all p (hooks_raw s).
Proof. done. Qed.

Lemma removed_hooks_simple plugname p s :
  hooks_simple (removed plugname p s) = discard_events p _simple_events (hooks_simple s).
Proof. done. Qed.

Lemma removed_plugs plugname p s :
  plugs (removed plugname p s) = delete plugname (plugs s).
Proof. done. Qed.

Lemma removed_not_hooked plugname p s :
  tables_ready s -> p ∉ hooked (removed plugname p s).
Proof.
  intros Hready. rewrite elem_of_hooked.
  rewrite removed_hooks_command, removed_hooks_raw, removed_hooks_simple.
  intros [(k & c & Hk & Hp)|[(k & c & Hk & Hp)|(ev & c & Hk & Hp)]].
  - rewrite discard_all_lookup in Hk.
    destruct (hooks_command s !! k); simplify_eq/=. set_solver.
  - rewrite discard_all_lookup in Hk.
    destruct (hooks_raw s !! k); simplify_eq/=. set_solver.
  - rewrite discard_events_lookup in Hk.
    destruct (decide (ev ∈ _simple_events)) as [Hin|Hnin].
    + destruct (hooks_simple s !! ev); simplify_eq/=. set_solver.
    + apply Hnin. apply (tables_ready_keys s); eauto.
Qed.

(** ** A cleanup that raises *)

(** C7 (as the code has it): when an active plug is removed and its
    cleanup step raises, the exception reaches the caller of
    [remove_plug] and the removal stops there: the plug set and the hook
    tables are as before.  When the cleanup step returns, the removal
    completes: the name is deleted from the active plug set and the
    instance is in no entry of any hook table. *)
Theorem remove_plug_cleanup_outcome cleanup plugname p s :
  plugs s !! plugname = Some p ->
  tables_ready s ->
  match cleanup p with
  | Some e =>
      remove_plug cleanup plugname s =
      Raise e (with_cleanups (fun log => (log ++ [p])%list) s)
  | None =>
      exists s1, remove_plug cleanup plugname s = Ok tt s1
                 /\ plugs s1 !! plugname = None
                 /\ p ∉ hooked s1
  end.
Proof.
  intros Hp Hready. destruct (cleanup p) as [e|] eqn:Hc.
  - by apply remove_plug_cleanup_raises.
  - exists (removed plugname p s). split; [|split].
    + apply remove_plug_eq; [done..|]. intros ev Hev. by apply tables_ready_keys.
    + rewrite removed_plugs. apply lookup_delete_eq.
    + by apply removed_not_hooked.
Qed.

Lemma remove_plug_cleanup_outcome_witness :
  remove_plug cleanup_boom "Core" kernel_core =
  Raise (OtherError "boom") (with_cleanups (fun log => (log ++ [core0])%list) kernel_core).
Proof.
  apply (remove_plug_cleanup_outcome cleanup_boom "Core" core0 kernel_core).
  - vm_compute. reflexivity.
  - vm_compute. reflexivity.
Defined.

(** C7 as the spec words it fails: here the cleanup of [Core] raises,
    and [remove_plug] does not return, [Core] is still in the active
    plug set and still in the hook tables. *)
Lemma remove_plug_cleanup_failure_counterexample :
  let o := remove_plug cleanup_boom "Core" kernel_core in
  is_ok o = false
  /\ plugs (state_of o) !! "Core" = Some core0
  /\ core0 ∈ hooked (state_of o).
Proof.
  split; [|split].
  - vm_compute. reflexivity.
  - vm_compute. reflexivity.
  - apply (bool_decide_unpack _). vm_compute. exact I.
Qed.

(** ** Loading a name that is already loaded *)




(** ** The three registration operations *)






(** ** Dispatch *)
Section DispatchFacts.

Variable handle : plug -> payload -> M unit.

Lemma call_each_app before after args s :
  call_each handle (before ++ after) args s =
  match call_each handle before args s with
  | (tr, Ok _ s1) =>
      let '(tr', o) := call_each handle after args s1 in ((tr ++ tr')%list, o)
  | (tr, Raise e s1) => (tr, Raise e s1)
  end.
Proof.
  revert s. induction before as [|q before IH]; intros s; simpl.
  - by destruct (call_each handle after args s).
  - destruct (handle q args s) as [[] s'|e s']; [|done].
    rewrite IH. destruct (call_each handle before args s') as [tr [[] s1|e s1]]; [|done].
    by destruct (call_each handle after args s1).
Qed.

(** Over a copy, every handler that returns is followed by the next
    one, whatever it did to the kernel. *)
Lemma call_each_returns l args s :
  (forall p s', p ∈ l -> is_ok (handle p args s') = true) ->
  exists s1, call_each handle l args s = (map (fun p => (p, args)) l, Ok tt s1).
Proof.
  revert s. induction l as [|q l IH]; intros s Hok; simpl; [by eexists|].
  pose proof (Hok q s ltac:(apply elem_of_cons; auto)) as Hq.
  destruct (handle q args s) as [[] s'|e s']; [|done].
  destruct (IH s') as [s1 Hs1]; [intros; apply Hok; apply elem_of_cons; auto|].
  rewrite Hs1. by eexists.
Qed.

(** X11: the copy taken by [event_command] is what gets called: each
    subscriber at the start of the dispatch once, none twice, whatever
    the handlers load or remove on the way. *)
Lemma event_command_snapshot source target cmd rest callbacks s :
  hooks_command s !! cmd = Some callbacks ->
  (forall p s', p ∈ callbacks ->
     is_ok (handle p (Command source target (cmd :: rest)) s') = true) ->
  exists s1,
    event_command handle source target (cmd :: rest) s =
      (map (fun p => (p, Command source target (cmd :: rest))) (elements callbacks),
       Ok tt s1)
    /\ NoDup (elements callbacks).
Proof.
  intros Hcmd Hok. unfold event_command. rewrite Hcmd.
  destruct (call_each_returns (elements callbacks)
              (Command source target (cmd :: rest)) s) as [s1 Hs1].
  { intros p s' Hp. apply Hok. by apply elem_of_elements. }
  exists s1. split; [done | apply NoDup_elements].
Qed.

(** X12: the same for [event_raw]: the subscribers of the raw code at
    the start of the dispatch are called, each once, whatever the
    handlers load or remove on the way. *)
Lemma event_raw_snapshot command prefix params callbacks s :
  hooks_raw s !! command = Some callbacks ->
  (forall p s', p ∈ callbacks ->
     is_ok (handle p (RawLine command prefix params) s') = true) ->
  exists s1,
    event_raw handle command prefix params s =
      (map (fun p => (p, RawLine command prefix params)) (elements callbacks), Ok tt s1)
    /\ NoDup (elements callbacks).
Proof.
  intros Hcmd Hok. unfold event_raw. rewrite Hcmd.
  destruct (call_each_returns (elements callbacks)
              (RawLine command prefix params) s) as [s1 Hs1].
  { intros p s' Hp. apply Hok. by apply elem_of_elements. }
  exists s1. split; [done | apply NoDup_elements].
Qed.

Lemma iter_live_nil ev used args s :
  iter_live handle ev used [] args s =
  if decide (size (default ∅ (hooks_simple s !! ev)) = used)
  then ([], Ok tt s) else ([], Raise RuntimeError s).
Proof. done. Qed.

Lemma iter_live_cons ev used p rest args s :
  iter_live handle ev used (p :: rest) args s =
  let live := default ∅ (hooks_simple s !! ev) in
  if decide (size live = used) then
    if decide (p ∈ live) then
      match handle p args s with
      | Ok _ s' =>
          let '(tr, o) := iter_live handle ev used rest args s' in ((p, args) :: tr, o)
      | Raise e s' => ([(p, args)], Raise e s')
      end
    else iter_live handle ev used rest args s
  else ([], Raise RuntimeError s).
Proof. done. Qed.

Lemma iter_live_app ev used before after args s :
  iter_live handle ev used (before ++ after) args s =
  match iter_live handle ev used before args s with
  | (tr, Ok _ s1) =>
      let '(tr', o) := iter_live handle ev used after args s1 in ((tr ++ tr')%list, o)
  | (tr, Raise e s1) => (tr, Raise e s1)
  end.
Proof.
  revert s. induction before as [|q before IH]; intros s.
  - rewrite iter_live_nil. simpl app.
    destruct (decide _) as [Hsz|Hsz].
    + by destruct (iter_live handle ev used after args s).
    + destruct after; [rewrite iter_live_nil | rewrite iter_live_cons];
        cbv zeta; by rewrite decide_False.
  - simpl app. rewrite !iter_live_cons. cbv zeta.
    destruct (decide _) as [Hsz|Hsz]; [|done].
    destruct (decide _) as [Hin|Hin]; [|apply IH].
    destruct (handle q args s) as [[] s'|e s']; [|done].
    rewrite IH.
    destruct (iter_live handle ev used before args s') as [tr [[] s1|e s1]]; [|done].
    by destruct (iter_live handle ev used after args s1).
Qed.

End DispatchFacts.

(** ** One subscriber of a command *)

(** C9: when plug [A] is the one subscriber of a command (the spec's
    [ping]), the command event with that command first in [argv] calls
    [A]'s command handler once, with the whole [argv], and calls nothing
    else; once [remove_plug] has removed [A], the same event calls no
    handler and returns; and a command that is no key of the command
    table calls no handler and returns. *)
Theorem command_dispatch_single_subscriber
    handle cleanup plugname A cmd rest source target s :
  hooks_command s !! cmd = Some {[A]} ->
  plugs s !! plugname = Some A ->
  cleanup A = None ->
  tables_ready s ->
  let argv := cmd :: rest in
  event_command handle source target argv s =
    ([(A, Command source target argv)], handle A (Command source target argv) s)
  /\ (exists s1, remove_plug cleanup plugname s = Ok tt s1
        /\ event_command handle source target argv s1 = ([], Ok tt s1))
  /\ (forall s2, hooks_command s2 !! cmd = None ->
        event_command handle source target argv s2 = ([], Ok tt s2)).
Proof.
  intros Hcmd HA Hclean Hready argv. split; [|split].
  - unfold event_command, argv. rewrite Hcmd, elements_singleton. simpl.
    by destruct (handle A _ s) as [[] s'|e s'].
  - exists (removed plugname A s). split.
    + apply remove_plug_eq; [done..|]. intros ev Hev. by apply tables_ready_keys.
    + unfold event_command, argv.
      rewrite removed_hooks_command, discard_all_lookup, Hcmd. simpl.
      replace ({[A]} ∖ {[A]} : gset plug) with (∅ : gset plug) by set_solver.
      by rewrite elements_empty.
  - intros s2 Hnone. unfold event_command, argv. by rewrite Hnone.
Qed.

Lemma command_dispatch_single_subscriber_witness :
  event_command handle_nothing "alice" "#room" ["ping"] kernel_ping =
    ([(ping0, Command "alice" "#room" ["ping"])],
     handle_nothing ping0 (Command "alice" "#room" ["ping"]) kernel_ping)
  /\ (exists s1, remove_plug cleanup_ok "Ping" kernel_ping = Ok tt s1
        /\ event_command handle_nothing "alice" "#room" ["ping"] s1 = ([], Ok tt s1))
  /\ (forall s2, hooks_command s2 !! "ping" = None ->
        event_command handle_nothing "alice" "#room" ["ping"] s2 = ([], Ok tt s2)).
Proof.
  apply (command_dispatch_single_subscriber
           handle_nothing cleanup_ok "Ping" ping0 "ping" [] "alice" "#room" kernel_ping).
  - vm_compute. reflexivity.
  - vm_compute. reflexivity.
  - reflexivity.
  - vm_compute. reflexivity.
Defined.

(** ** A plug removed while its event is being delivered *)

(** C1 at a failing input: [Echo] and [Logger] both subscribe to channel
    messages and [Echo]'s handler unloads [Echo].  [event_chanmsg] walks
    the set itself: after [Echo]'s handler the set has shrunk, the walk
    raises [RuntimeError], and [Logger] is not called.  The same handler
    on the command path, which walks a copy, does no harm: [Ping] unloads
    itself, and [Pong] is still called; and [Core]'s own [cmd_reload],
    asked to reload [Core], swaps the instance in the middle of its
    dispatch and the dispatch returns. *)
Theorem event_chanmsg_unload_during_dispatch :
  hooks_simple kernel_demo !! Event.chanmsg = Some {[echo2; logger3]}
  /\ event_chanmsg handle_unload_self "alice" "#room" "bye" false kernel_demo =
       ([(echo2, Chanmsg "alice" "#room" "bye" false)],
        Raise RuntimeError (removed "Echo" echo2 kernel_demo))
  /\ event_command handle_unload_self "alice" "#room" ["ping"] kernel_demo =
       ([(ping0, Command "alice" "#room" ["ping"]);
         (pong1, Command "alice" "#room" ["ping"])],
        Ok tt (removed "Ping" ping0 kernel_demo))
  /\ (let r := event_command handle_core "alice" "#room" ["reload"; "Core"] kernel_demo in
      r.1 = [(core5, Command "alice" "#room" ["reload"; "Core"])]
      /\ is_ok r.2 = true
      /\ plugs (state_of r.2) !! "Core" = Some (Plug 6 "Core")).
Proof.
  cbv zeta. split; [|split; [|split; [|split; [|split]]]]; vm_compute; reflexivity.
Qed.

(** ** A handler that raises *)

Lemma iter_live_ok_size handle ev used l args s tr s1 :
  iter_live handle ev used l args s = (tr, Ok tt s1) ->
  size (default ∅ (hooks_simple s1 !! ev)) = used.
Proof.
  revert s tr. induction l as [|q l IH]; intros s tr.
  - rewrite iter_live_nil. destruct (decide _) as [Hsz|Hsz]; [|done].
    by intros [= _ <-].
  - rewrite iter_live_cons. cbv zeta.
    destruct (decide _) as [Hsz|Hsz]; [|done].
    destruct (decide _) as [Hin|Hin]; [|apply IH].
    destruct (handle q args s) as [[] s'|e s']; [|done].
    destruct (iter_live handle ev used l args s') as [tr' o] eqn:E.
    intros [= _ ->]. by eapply IH.
Qed.

(** C3 (as the code has it): no dispatcher catches what a handler
    raises.  When the handlers of the subscribers [before] have returned
    and the handler of [p] raises, the exception leaves the dispatch
    call, and the handlers of the subscribers [after] are not called:
    the calls made are those of [before] and of [p].  This holds for the
    command event, the raw event and the category events alike. *)
Theorem handler_fault_propagates
    handle (callbacks : gset plug) (before : list plug) p after e s s1 s2 :
  elements callbacks = (before ++ p :: after)%list ->
  (forall source target cmd rest,
     let args := Command source target (cmd :: rest) in
     hooks_command s !! cmd = Some callbacks ->
     call_each handle before args s = (map (fun q => (q, args)) before, Ok tt s1) ->
     handle p args s1 = Raise e s2 ->
     event_command handle source target (cmd :: rest) s =
       (map (fun q => (q, args)) (before ++ [p])%list, Raise e s2))
  /\ (forall command prefix params,
     let args := RawLine command prefix params in
     hooks_raw s !! command = Some callbacks ->
     call_each handle before args s = (map (fun q => (q, args)) before, Ok tt s1) ->
     handle p args s1 = Raise e s2 ->
     event_raw handle command prefix params s =
       (map (fun q => (q, args)) (before ++ [p])%list, Raise e s2))
  /\ (forall ev args,
     hooks_simple s !! ev = Some callbacks ->
     iter_live handle ev (size callbacks) before args s =
       (map (fun q => (q, args)) before, Ok tt s1) ->
     p ∈ default ∅ (hooks_simple s1 !! ev) ->
     handle p args s1 = Raise e s2 ->
     event_simple handle ev args s =
       (map (fun q => (q, args)) (before ++ [p])%list, Raise e s2)).
Proof.
  intros Hel. split; [|split].
  - intros source target cmd rest args Hcmd Hbefore Hp.
    unfold event_command. rewrite Hcmd, Hel, call_each_app. fold args.
    rewrite Hbefore. simpl. rewrite Hp. by rewrite map_app.
  - intros command prefix params args Hcmd Hbefore Hp.
    unfold event_raw. rewrite Hcmd, Hel, call_each_app. fold args.
    rewrite Hbefore. simpl. rewrite Hp. by rewrite map_app.
  - intros ev args Hev Hbefore Hin Hp.
    unfold event_simple. rewrite Hev, Hel, iter_live_app, Hbefore.
    rewrite iter_live_cons. cbv zeta.
    rewrite decide_True by (by eapply iter_live_ok_size).
    rewrite decide_True by done. rewrite Hp. by rewrite map_app.
Qed.

Lemma handler_fault_propagates_witness :
  event_command handle_faulty "alice" "#room" ["ping"] kernel_demo =
    ([(ping0, Command "alice" "#room" ["ping"])], Raise (OtherError "fault") kernel_demo)
  /\ event_raw handle_faulty "330" "irc.example.net" ["shirk"; "alice"; "al"] kernel_demo =
    ([(auth4, RawLine "330" "irc.example.net" ["shirk"; "alice"; "al"])],
     Raise (OtherError "fault") kernel_demo)
  /\ event_simple handle_faulty Event.userjoined (Userjoined "alice" "#room") kernel_demo =
    ([(auth4, Userjoined "alice" "#room")], Raise (OtherError "fault") kernel_demo).
Proof.
  assert (elements ({[ping0; pong1]} : gset plug) = ([] ++ ping0 :: [pong1])%list)
    as Hpair by (vm_compute; reflexivity).
  assert (elements ({[auth4]} : gset plug) = ([] ++ auth4 :: [])%list)
    as Hone by (vm_compute; reflexivity).
  split; [|split].
  - apply (proj1 (handler_fault_propagates handle_faulty {[ping0; pong1]} [] ping0 [pong1]
                    (OtherError "fault") kernel_demo kernel_demo kernel_demo Hpair)
             "alice" "#room" "ping" []);
      vm_compute; reflexivity.
  - apply (proj1 (proj2 (handler_fault_propagates handle_faulty {[auth4]} [] auth4 []
                    (OtherError "fault") kernel_demo kernel_demo kernel_demo Hone))
             "330" "irc.example.net" ["shirk"; "alice"; "al"]);
      vm_compute; reflexivity.
  - apply (proj2 (proj2 (handler_fault_propagates handle_faulty {[auth4]} [] auth4 []
                    (OtherError "fault") kernel_demo kernel_demo kernel_demo Hone))
             Event.userjoined (Userjoined "alice" "#room")).
    + vm_compute. reflexivity.
    + vm_compute. reflexivity.
    + apply (bool_decide_unpack _). vm_compute. exact I.
    + vm_compute. reflexivity.
Defined.

(** C3 as the spec words it fails: [Ping] and [Pong] both subscribe to
    [ping] and [Ping]'s handler raises.  The dispatch call does not
    return, and [Pong], the remaining subscriber, is not called. *)
Lemma handler_fault_isolation_counterexample :
  let r := event_command handle_faulty "alice" "#room" ["ping"] kernel_demo in
  hooks_command kernel_demo !! "ping" = Some {[ping0; pong1]}
  /\ is_ok r.2 = false
  /\ r.1 = [(ping0, Command "alice" "#room" ["ping"])].
Proof. cbv zeta. split; [|split]; vm_compute; reflexivity. Qed.

(** ** The words of a command message *)






(** C10 at a failing input: the command prefix is [!!] and the message
    is [!!].  The stripped message starts with the prefix and is longer
    than one character, so the command event is fired; what follows the
    prefix is empty, [argv] is the empty list, and [argv[0]] in
    [event_command] raises [IndexError]. *)
Theorem privmsg_prefix_only_message :
  cmd_prefix kernel_long_prefix = "!!"
  /\ py_split (py_from (String.length (cmd_prefix kernel_long_prefix)) (py_strip "!!")) = []
  /\ privmsg handle_nothing "alice!al@example.net" "#room" "!!" kernel_long_prefix =
       ([], Raise IndexError kernel_long_prefix).
Proof. cbv zeta. split; [|split]; vm_compute; reflexivity. Qed.

(** ** How often a plug is cleaned up *)
Section CleanupFacts.

Variable cleanup : plug -> option exn.

Lemma with_cleanups_app l s :
  foldl (fun s q => with_cleanups (fun log => (log ++ [q])%list) s) s l =
  with_cleanups (fun log => (log ++ l)%list) s.
Proof.
  revert s. induction l as [|q l IH]; intros s; simpl.
  - destruct s. unfold with_cleanups. simpl. by rewrite app_nil_r.
  - rewrite IH. destruct s. unfold with_cleanups. simpl. by rewrite <-app_assoc.
Qed.

Lemma cleanup_each_eq l s :
  (forall q, q ∈ l -> cleanup q = None) ->
  for_each l (call_cleanup cleanup) s =
  Ok tt (with_cleanups (fun log => (log ++ l)%list) s).
Proof.
  intros Hok.
  erewrite (for_each_pure (fun _ => True)
              l _ (fun s q => with_cleanups (fun log => (log ++ [q])%list) s)); [|..].
  - by rewrite with_cleanups_app.
  - intros q s' Hq _. split; [|done]. rewrite call_cleanup_eq. by rewrite Hok.
  - done.
Qed.

Lemma shutdown_eq msg s :
  (forall q, q ∈ active s -> cleanup q = None) ->
  shutdown cleanup msg s =
  Ok tt (with_sent (fun out => (out ++ ["QUIT :" +:+ msg])%list)
           (with_shuttingdown true
              (with_cleanups (fun log => (log ++ active s)%list) s))).
Proof.
  intros Hok. unfold shutdown, quit. munfold. by rewrite cleanup_each_eq.
Qed.

Lemma connectionLost_eq s :
  (forall q, q ∈ active s -> cleanup q = None) ->
  exists s1, connectionLost cleanup s = Ok tt s1
             /\ cleanups s1 = (cleanups s ++ active s)%list
             /\ plugs s1 = plugs s.
Proof.
  intros Hok. unfold connectionLost, del_users. munfold.
  rewrite cleanup_each_eq by done. simpl.
  destruct (users s); simpl; eexists; (split; [reflexivity|]); done.
Qed.

Lemma count_app p (l1 l2 : list plug) :
  List.length (filter (fun q => q = p) (l1 ++ l2)) =
  List.length (filter (fun q => q = p) l1) + List.length (filter (fun q => q = p) l2).
Proof. by rewrite filter_app, length_app. Qed.

Lemma count_absent p (l : list plug) :
  p ∉ l -> List.length (filter (fun q => q = p) l) = 0.
Proof.
  induction l as [|q l IH]; [done|]. intros Hnin.
  apply not_elem_of_cons in Hnin as [Hne Hnin].
  rewrite filter_cons_False by congruence. by apply IH.
Qed.

Lemma count_NoDup p (l : list plug) :
  NoDup l -> p ∈ l -> List.length (filter (fun q => q = p) l) = 1.
Proof.
  induction 1 as [|q l Hq Hnd IH]; intros Hin; [by apply elem_of_nil in Hin|].
  apply elem_of_cons in Hin as [->|Hin].
  - rewrite filter_cons_True by done. simpl. by rewrite count_absent.
  - rewrite filter_cons_False; [by apply IH|]. intros ->. done.
Qed.

Lemma active_NoDup s : names_match s -> NoDup (active s).
Proof.
  intros Hnames. unfold active. apply NoDup_fmap_2_strong; [|apply NoDup_map_to_list].
  intros [n1 p1] [n2 p2] H1%elem_of_map_to_list H2%elem_of_map_to_list Heq.
  simpl in Heq. subst p2. f_equal.
  by rewrite <-(Hnames _ _ H1), <-(Hnames _ _ H2).
Qed.

Lemma elem_of_active p s :
  p ∈ active s <-> exists plugname, plugs s !! plugname = Some p.
Proof.
  unfold active. rewrite list_elem_of_fmap. split.
  - intros ([n q] & -> & Hin%elem_of_map_to_list). eauto.
  - intros (n & Hn). exists (n, p). split; [done|]. by apply elem_of_map_to_list.
Qed.

End CleanupFacts.

(** C6 (as the code has it): [remove_plug] enters the cleanup step of
    the instance it removes once, and the instance is then no longer in
    the active plug set, so that neither [shutdown] nor [connectionLost]
    reaches it again.  [shutdown] enters the cleanup step of every
    active instance once and leaves the active plug set as it is, and
    so does [connectionLost]: on the path [shutdown] followed by the
    connection closing, every active instance is cleaned up twice. *)
Theorem cleanup_counts cleanup s :
  names_match s ->
  tables_ready s ->
  (forall q, q ∈ active s -> cleanup q = None) ->
  (forall plugname p, plugs s !! plugname = Some p ->
     exists s1, remove_plug cleanup plugname s = Ok tt s1
                /\ cleanup_count p s1 = S (cleanup_count p s)
                /\ p ∉ active s1)
  /\ (forall msg, exists s1 s2,
        shutdown cleanup msg s = Ok tt s1
        /\ connectionLost cleanup s1 = Ok tt s2
        /\ forall p, p ∈ active s ->
             cleanup_count p s1 = S (cleanup_count p s)
             /\ cleanup_count p s2 = S (S (cleanup_count p s))).
Proof.
  intros Hnames Hready Hok. split.
  - intros plugname p Hp. exists (removed plugname p s). split; [|split].
    + apply remove_plug_eq; [done| |].
      * apply Hok, elem_of_active. eauto.
      * intros ev Hev. by apply tables_ready_keys.
    + unfold cleanup_count. simpl. rewrite count_app. simpl.
      rewrite filter_cons_True by done. simpl. lia.
    + rewrite elem_of_active. intros (n & Hn). rewrite removed_plugs in Hn.
      apply lookup_delete_Some in Hn as [Hne Hn].
      apply Hne. by rewrite <-(Hnames _ _ Hp), <-(Hnames _ _ Hn).
  - intros msg. eexists.
    destruct (connectionLost_eq cleanup
                (with_sent (fun out => (out ++ ["QUIT :" +:+ msg])%list)
                   (with_shuttingdown true
                      (with_cleanups (fun log => (log ++ active s)%list) s))))
      as (s2 & Hlost & Hlog & _); [done|].
    exists s2. split; [by apply shutdown_eq|]. split; [done|].
    intros p Hp. pose proof (count_NoDup p _ (active_NoDup s Hnames) Hp) as Hone.
    unfold cleanup_count. rewrite Hlog. simpl.
    change (active (with_sent _ _)) with (active s).
    rewrite !count_app, Hone. lia.
Qed.

Lemma cleanup_counts_witness :
  (forall plugname p, plugs kernel_core !! plugname = Some p ->
     exists s1, remove_plug cleanup_ok plugname kernel_core = Ok tt s1
                /\ cleanup_count p s1 = S (cleanup_count p kernel_core)
                /\ p ∉ active s1)
  /\ (forall msg, exists s1 s2,
        shutdown cleanup_ok msg kernel_core = Ok tt s1
        /\ connectionLost cleanup_ok s1 = Ok tt s2
        /\ forall p, p ∈ active kernel_core ->
             cleanup_count p s1 = S (cleanup_count p kernel_core)
             /\ cleanup_count p s2 = S (S (cleanup_count p kernel_core))).
Proof.
  apply (cleanup_counts cleanup_ok kernel_core).
  - intros plugname p. change (plugs kernel_core) with (<["Core" := core0]> (∅ : gmap string plug)).
    intros [[<- <-]|[_ H]]%lookup_insert_Some; [done | by rewrite lookup_empty in H].
  - vm_compute. reflexivity.
  - reflexivity.
Defined.

(** C6 as the spec words it fails: [Core] is active, [shutdown] runs and
    then the connection closes; the cleanup step of that one instance
    has then been entered twice. *)
Lemma cleanup_twice_counterexample :
  let s1 := state_of (shutdown cleanup_ok "Requested by alice" kernel_core) in
  let s2 := state_of (connectionLost cleanup_ok s1) in
  plugs kernel_core !! "Core" = Some core0
  /\ cleanup_count core0 kernel_core = 0
  /\ cleanup_count core0 s2 = 2.
Proof. cbv zeta. split; [|split]; vm_compute; reflexivity. Qed.

(** ** Tables and active plugs along a run *)

Lemma bind_keeps {A B} (P : Shirk -> Prop) (c : M A) (k : A -> M B) s :
  (forall s, P s -> P (state_of (c s))) ->
  (forall a s, P s -> P (state_of (k a s))) ->
  P s -> P (state_of ((c ≫= k) s)).
Proof.
  intros Hc Hk Hs. munfold. pose proof (Hc s Hs) as Hcs.
  destruct (c s) as [a s'|e s']; simpl in *; [by apply Hk | done].
Qed.

Lemma hooked_grows p s s' :
  grows_by p (hooks_command s) (hooks_command s') ->
  grows_by p (hooks_raw s) (hooks_raw s') ->
  grows_by p (hooks_simple s) (hooks_simple s') ->
  hooked s' ⊆ hooked s ∪ {[p]}.
Proof.
  intros [_ Hc] [_ Hr] [_ Hs] q. rewrite elem_of_union, elem_of_singleton, !elem_of_hooked.
  intros [(k & c & Hk & Hq)|[(k & c & Hk & Hq)|(k & c & Hk & Hq)]].
  - destruct (Hc k c q Hk Hq) as [->|(c0 & ? & ?)]; [by right | left; left; eauto].
  - destruct (Hr k c q Hk Hq) as [->|(c0 & ? & ?)]; [by right | left; right; left; eauto].
  - destruct (Hs k c q Hk Hq) as [->|(c0 & ? & ?)]; [by right | left; right; right; eauto].
Qed.

Lemma grows_by_refl {K} `{Countable K} p (h : gmap K (gset plug)) : grows_by p h h.
Proof. split; [done|]. intros k c q Hk Hq. right. eauto. Qed.

Lemma reg_grows k p h : grows_by p h (reg k p h).
Proof.
  split.
  - unfold reg. rewrite dom_insert_L. set_solver.
  - intros k' c q. rewrite reg_lookup.
    destruct (decide (k = k')) as [<-|]; [|right; eauto].
    intros [= <-]. rewrite elem_of_union, elem_of_singleton. intros [Hq| ->]; [|by left].
    right. destruct (h !! k); simpl in *; [eauto | by apply not_elem_of_empty in Hq].
Qed.

Lemma reg_simple_grows p h event : grows_by p h (reg_simple p h event).
Proof.
  split.
  - intros e. rewrite !elem_of_dom, reg_simple_lookup.
    destruct (decide _); [|done]. by rewrite fmap_is_Some.
  - intros e c q. rewrite reg_simple_lookup.
    destruct (decide (event = EvConst e)) as [->|]; [|right; eauto].
    destruct (h !! e) as [c0|]; simpl; [|done].
    intros [= <-]. rewrite elem_of_union, elem_of_singleton.
    intros [Hq| ->]; [right; eauto | by left].
Qed.

Lemma reg_simple_dom p h event : dom (reg_simple p h event) = dom h.
Proof.
  apply set_eq; intros e. rewrite !elem_of_dom, reg_simple_lookup.
  destruct (decide _); [|done]. by rewrite fmap_is_Some.
Qed.

Lemma hooked_step p (before : gset plug) s s' :
  hooked s ⊆ before ∪ {[p]} -> hooked s' ⊆ hooked s ∪ {[p]} ->
  hooked s' ⊆ before ∪ {[p]}.
Proof. set_solver. Qed.

Lemma add_command_keeps p pl n before cmd s :
  at_most_added p pl n before s ->
  at_most_added p pl n before (state_of (add_command cmd p s)).
Proof.
  intros (Hpl & Hn & Hready & Hsub). rewrite add_command_eq. simpl.
  split; [done|]. split; [done|]. split; [done|].
  apply (hooked_step p before s); [done|].
  apply hooked_grows; simpl; [apply reg_grows | apply grows_by_refl..].
Qed.

Lemma add_raw_keeps p pl n before cmd s :
  at_most_added p pl n before s ->
  at_most_added p pl n before (state_of (add_raw cmd p s)).
Proof.
  intros (Hpl & Hn & Hready & Hsub). rewrite add_raw_eq. simpl.
  split; [done|]. split; [done|]. split; [done|].
  apply (hooked_step p before s); [done|].
  apply hooked_grows; simpl; [apply grows_by_refl | apply reg_grows | apply grows_by_refl].
Qed.

Lemma add_callback_raises p s e :
  e = Event.raw \/ e = Event.command ->
  add_callback (EvConst e) p s = Raise AttributeError s.
Proof. by intros [->| ->]. Qed.

Lemma add_callback_keeps p pl n before event s :
  at_most_added p pl n before s ->
  at_most_added p pl n before (state_of (add_callback event p s)).
Proof.
  intros (Hpl & Hn & Hready & Hsub).
  destruct (decide (event = EvConst Event.raw)) as [->|Hraw];
    [by rewrite add_callback_raises by auto|].
  destruct (decide (event = EvConst Event.command)) as [->|Hcmd];
    [by rewrite add_callback_raises by auto|].
  rewrite add_callback_eq by done. simpl.
  split; [done|]. split; [done|]. split.
  - unfold tables_ready in *. simpl. by rewrite reg_simple_dom.
  - apply (hooked_step p before s); [done|].
    apply hooked_grows; simpl; [apply grows_by_refl..|apply reg_simple_grows].
Qed.

Lemma hook_events_keeps cls p pl n before s :
  at_most_added p pl n before s ->
  at_most_added p pl n before (state_of (hook_events cls p s)).
Proof.
  intros Hs. unfold hook_events.
  apply bind_keeps; [| |done].
  - intros s' Hs'. apply for_each_keeps; [|done].
    intros ev s'' _ Hs''. apply bind_keeps; [|done..].
    intros s3 Hs3. by apply add_callback_keeps.
  - intros _ s' Hs'. apply bind_keeps; [| |done].
    + intros s'' Hs''. apply for_each_keeps; [|done].
      intros c s3 _ Hs3. by apply add_command_keeps.
    + intros _ s'' Hs''. apply for_each_keeps; [|done].
      intros c s3 _ Hs3. by apply add_raw_keeps.
Qed.

Lemma fresh_simple_lookup (l : list Event.t) ev :
  foldr (fun ev h => <[ev := ∅]> h) (∅ : gmap Event.t (gset plug)) l !! ev =
  if decide (ev ∈ l) then Some ∅ else None.
Proof.
  induction l as [|e l IH]; cbn [foldr].
  - rewrite lookup_empty. by_cases_decide.
  - rewrite lookup_insert, IH. by_cases_decide.
Qed.

Lemma fresh_tables_ready s0 : tables_ready (fresh_tables s0).
Proof.
  unfold tables_ready. apply set_eq; intros ev.
  rewrite elem_of_dom, elem_of_list_to_set.
  change (hooks_simple (fresh_tables s0))
    with (foldr (fun ev h => <[ev := ∅]> h) (∅ : gmap Event.t (gset plug)) _simple_events).
  rewrite fresh_simple_lookup. destruct (decide (ev ∈ _simple_events)); [by eauto|].
  split; [by intros [? ?] | done].
Qed.

Lemma fresh_tables_hooked s0 : hooked (fresh_tables s0) = ∅.
Proof.
  apply set_eq; intros q. rewrite elem_of_hooked. split; [|by intros ?%not_elem_of_empty].
  change (hooks_simple (fresh_tables s0))
    with (foldr (fun ev h => <[ev := ∅]> h) (∅ : gmap Event.t (gset plug)) _simple_events).
  change (hooks_command (fresh_tables s0)) with (∅ : gmap string (gset plug)).
  change (hooks_raw (fresh_tables s0)) with (∅ : gmap string (gset plug)).
  intros [(k & c & Hk & Hq)|[(k & c & Hk & Hq)|(k & c & Hk & Hq)]].
  - by rewrite lookup_empty in Hk.
  - by rewrite lookup_empty in Hk.
  - rewrite fresh_simple_lookup in Hk. destruct (decide _); by simplify_eq.
Qed.

Lemma fresh_tables_inv s0 : kernel_inv (fresh_tables s0).
Proof.
  split; [apply fresh_tables_ready|]. split.
  - intros q. rewrite fresh_tables_hooked. by intros ?%not_elem_of_empty.
  - intros n q. change (plugs (fresh_tables s0)) with (∅ : gmap string plug).
    by rewrite lookup_empty.
Qed.

Section RunFacts.

Variable modules : string -> option PlugClass.
Variable cleanup : plug -> option exn.

Lemma load_keeps_inv plugname s :
  kernel_inv s -> plugs s !! plugname = None ->
  kernel_inv (state_of (load_plug modules plugname s)).
Proof.
  intros (Hready & Hhooked & Hplugs) Hfresh. unfold load_plug.
  destruct (modules plugname) as [cls|]; [|done].
  set (p := Plug (next_id s) plugname).
  set (s' := with_plugs (<[plugname := p]>) (with_next_id (S (next_id s)) s)).
  change ((new_plug plugname ≫= _) s) with (hook_events cls p s').
  destruct (hook_events_keeps cls p (<[plugname := p]> (plugs s)) (S (next_id s))
              (hooked s) s') as (Hpl & Hn & Hready' & Hsub).
  { split; [done|]. split; [done|]. split; [done|]. set_solver. }
  split; [done|]. split.
  - intros q Hq. rewrite Hpl. apply Hsub in Hq.
    apply elem_of_union in Hq as [Hq|Hq%elem_of_singleton]; [|subst q].
    + pose proof (Hhooked q Hq) as Hq'. rewrite lookup_insert_ne; [done|].
      intros Heq. rewrite Heq in Hfresh. congruence.
    + simpl. by rewrite lookup_insert_eq.
  - intros n q. rewrite Hpl, Hn.
    intros [[<- <-]|[Hne Hq]]%lookup_insert_Some; [simpl; split; [done|lia]|].
    destruct (Hplugs n q Hq). split; [done|lia].
Qed.

Lemma removed_hooked_subset plugname p s q :
  tables_ready s ->
  q ∈ hooked (removed plugname p s) -> q ∈ hooked s /\ q <> p.
Proof.
  intros Hready. rewrite !elem_of_hooked.
  rewrite removed_hooks_command, removed_hooks_raw, removed_hooks_simple.
  intros [(k & c & Hk & Hq)|[(k & c & Hk & Hq)|(k & c & Hk & Hq)]].
  - rewrite discard_all_lookup in Hk.
    destruct (hooks_command s !! k) as [c0|] eqn:E; simplify_eq/=.
    apply elem_of_difference in Hq as [Hq Hne]. split; [left; eauto | set_solver].
  - rewrite discard_all_lookup in Hk.
    destruct (hooks_raw s !! k) as [c0|] eqn:E; simplify_eq/=.
    apply elem_of_difference in Hq as [Hq Hne]. split; [right; left; eauto | set_solver].
  - rewrite discard_events_lookup in Hk.
    destruct (decide (k ∈ _simple_events)).
    + destruct (hooks_simple s !! k) as [c0|] eqn:E; simplify_eq/=.
      apply elem_of_difference in Hq as [Hq Hne]. split; [right; right; eauto | set_solver].
    + destruct n. apply (tables_ready_keys s); eauto.
Qed.

Lemma remove_keeps_inv plugname s :
  kernel_inv s -> kernel_inv (state_of (remove_plug cleanup plugname s)).
Proof.
  intros Hinv. pose proof Hinv as (Hready & Hhooked & Hplugs).
  destruct (plugs s !! plugname) as [p|] eqn:Hp;
    [|by rewrite remove_plug_missing].
  destruct (cleanup p) as [e|] eqn:Hc.
  { rewrite (remove_plug_cleanup_raises cleanup plugname p e) by done. exact Hinv. }
  rewrite (remove_plug_eq cleanup plugname p) by
    (try done; intros ev Hev; by apply tables_ready_keys).
  simpl state_of. split; [|split].
  - unfold tables_ready in *. by rewrite removed_hooks_simple, discard_events_dom.
  - intros q [Hq Hne]%removed_hooked_subset; [|done].
    rewrite removed_plugs. pose proof (Hhooked q Hq) as Hq'.
    rewrite lookup_delete_ne; [done|]. intros Heq. rewrite <-Heq in Hq'. congruence.
  - intros n q. rewrite removed_plugs. intros [_ Hq]%lookup_delete_Some.
    by apply Hplugs.
Qed.

Lemma run_op_keeps_inv o s :
  kernel_inv s ->
  match o with Load plugname => plugs s !! plugname = None | Remove _ => True end ->
  kernel_inv (run_op modules cleanup o s).
Proof.
  intros Hinv Hfresh. destruct o as [plugname|plugname]; simpl.
  - by apply load_keeps_inv.
  - by apply remove_keeps_inv.
Qed.

Lemma run_keeps_inv ops s :
  kernel_inv s -> loads_fresh modules cleanup ops s ->
  kernel_inv (run modules cleanup ops s).
Proof.
  revert s. induction ops as [|o ops IH]; intros s Hinv Hfresh; [done|].
  destruct Hfresh as [Ho Hrest]. simpl. apply IH; [|done].
  by apply run_op_keeps_inv.
Qed.

(** *** Declared interests stay registered *)

Hypothesis modules_well_declared :
  forall plugname cls, modules plugname = Some cls -> well_declared cls.






End RunFacts.

Lemma demo_modules_well_declared plugname cls :
  demo_modules plugname = Some cls -> well_declared cls.
Proof.
  unfold demo_modules. repeat case_decide; intros [= <-]; split; simpl;
    rewrite ?elem_of_cons, ?elem_of_nil; naive_solver.
Qed.




(** * More of the kernel *)

(** ** The plugs of the configuration *)
Section LoadPlugsFacts.

Variable modules : string -> option PlugClass.
Variable cleanup : plug -> option exn.

Hypothesis modules_well_declared :
  forall plugname cls, modules plugname = Some cls -> well_declared cls.


Lemma load_op_plugs plugname s :
  plugs (run_op modules cleanup (Load plugname) s) =
  match modules plugname with
  | Some _ => <[plugname := Plug (next_id s) plugname]> (plugs s)
  | None => plugs s
  end.
Proof.
  unfold run_op. destruct (modules plugname) as [cls|] eqn:Hm.
  - by rewrite (load_plug_eq modules plugname cls) by eauto.
  - by rewrite load_plug_import_error.
Qed.



Lemma loads_fresh_NoDup l s :
  NoDup l -> (forall n, n ∈ l -> plugs s !! n = None) ->
  loads_fresh modules cleanup (Load <$> l) s.
Proof.
  intros Hnd. revert s. induction Hnd as [|n l Hn Hnd IH]; intros s Hfree; [done|].
  split; [apply Hfree, elem_of_cons; auto|].
  apply IH. intros n' Hn'. rewrite load_op_plugs.
  destruct (modules n); [|apply Hfree, elem_of_cons; auto].
  rewrite lookup_insert_ne by (intros ->; done). apply Hfree, elem_of_cons; auto.
Qed.

End LoadPlugsFacts.



(** ** Reloading from [Core] *)

Lemma kernel_demo_inv : kernel_inv kernel_demo.
Proof.
  assert (kernel_demo =
          run demo_modules cleanup_ok
            (Load <$> ["Ping"; "Pong"; "Echo"; "Logger"; "Auth"; "Core"]) kernel0)
    as -> by (vm_compute; reflexivity).
  apply run_keeps_inv.
  - apply fresh_tables_inv.
  - apply loads_fresh_NoDup.
    + exact demo_modules_well_declared.
    + apply (bool_decide_unpack _). vm_compute. exact I.
    + intros n _. apply lookup_empty.
Qed.

Section ReloadFacts.

Variable modules : string -> option PlugClass.
Variable cleanup : plug -> option exn.

Lemma try_except_state {A} (c : M A) e (a : A) s :
  state_of (try_except c e (ret a) s) = state_of (c s).
Proof. unfold try_except. destruct (c s); simpl; [done|]. by destruct (decide _). Qed.

Lemma reload_remove_step plugname s :
  (forall p, cleanup p <> Some KeyError) ->
  kernel_inv s ->
  match try_except (remove_plug cleanup plugname) KeyError (ret tt) s with
  | Ok _ s' => kernel_inv s' /\ plugs s' !! plugname = None
  | Raise _ s' => kernel_inv s'
  end.
Proof.
  intros Hclean Hinv. pose proof (remove_keeps_inv cleanup plugname s Hinv) as Hinv'.
  unfold try_except.
  destruct (plugs s !! plugname) as [p|] eqn:Hp.
  - destruct (cleanup p) as [e|] eqn:Hc.
    + rewrite (remove_plug_cleanup_raises cleanup plugname p e) in * by done.
      rewrite decide_False by (intros ->; by apply (Hclean p)). exact Hinv'.
    + assert (forall ev, ev ∈ _simple_events -> is_Some (hooks_simple s !! ev))
        as Hkeys by (intros ev Hev; apply tables_ready_keys; [apply Hinv | done]).
      rewrite (remove_plug_eq cleanup plugname p s Hp Hc Hkeys) in *.
      split; [exact Hinv'|]. rewrite removed_plugs. apply lookup_delete_eq.
  - rewrite remove_plug_missing by done. by rewrite decide_True.
Qed.

(** X2: [cmd_reload] keeps the tables and the active plug set in step,
    whatever names it is given, loaded or not, importable or not:
    because it removes a name before it loads it, no instance stays in a
    table after its name has passed to another instance.  (A cleanup
    step that raises [KeyError] would be taken for a name that is not
    loaded; it is excluded.) *)
Theorem cmd_reload_keeps_inv allowed argv s :
  (forall p, cleanup p <> Some KeyError) ->
  kernel_inv s ->
  kernel_inv (state_of (cmd_reload modules cleanup allowed argv s)).
Proof.
  intros Hclean Hinv. unfold cmd_reload. destruct allowed; [|done].
  apply for_each_keeps; [|done].
  intros plugname s' _ Hinv'. munfold.
  pose proof (reload_remove_step plugname s' Hclean Hinv') as Hstep.
  fold (try_except (remove_plug cleanup plugname) KeyError (fun s => Ok tt s) s').
  change (fun s => Ok tt s) with (@ret unit tt) in *.
  destruct (try_except (remove_plug cleanup plugname) KeyError (ret tt) s')
    as [[] s2|e s2]; [|done].
  destruct Hstep as [Hinv2 Hgone].
  pose proof (load_keeps_inv modules cleanup plugname s2 Hinv2 Hgone) as Hload.
  destruct (load_plug modules plugname s2) as [[] s3|e s3]; simpl in *; [done|].
  by destruct (decide _).
Qed.

End ReloadFacts.

Lemma cmd_reload_keeps_inv_witness :
  kernel_inv (state_of (cmd_reload demo_modules cleanup_ok true
                          ["reload"; "Core"; "Ghost"; "Quiet"] kernel_demo)).
Proof.
  apply (cmd_reload_keeps_inv demo_modules cleanup_ok true
           ["reload"; "Core"; "Ghost"; "Quiet"] kernel_demo).
  - discriminate.
  - exact kernel_demo_inv.
Defined.

Section ReloadOne.

Variable modules : string -> option PlugClass.
Variable cleanup : plug -> option exn.




End ReloadOne.



(** ** What loading and removing leave alone *)






(** X6: [remove_plug] takes the removed instance out of the sets and
    nothing else.  When the cleanup step returns, the call returns;
    every table keeps all its keys, so a command of the removed plug
    stays a key of the command table, with the plug gone from its set;
    in every entry the plugs other than the removed one are the ones
    that were there; every other name keeps its instance. *)
Theorem remove_plug_keeps_rest cleanup plugname p s :
  tables_ready s ->
  plugs s !! plugname = Some p ->
  cleanup p = None ->
  exists s1,
    remove_plug cleanup plugname s = Ok tt s1
    /\ dom (hooks_command s1) = dom (hooks_command s)
    /\ dom (hooks_raw s1) = dom (hooks_raw s)
    /\ dom (hooks_simple s1) = dom (hooks_simple s)
    /\ (forall other, other <> plugname -> plugs s1 !! other = plugs s !! other)
    /\ (forall q, q <> p ->
          (forall k, q ∈ default ∅ (hooks_command s1 !! k) <->
                     q ∈ default ∅ (hooks_command s !! k))
          /\ (forall k, q ∈ default ∅ (hooks_raw s1 !! k) <->
                        q ∈ default ∅ (hooks_raw s !! k))
          /\ (forall e, q ∈ default ∅ (hooks_simple s1 !! e) <->
                        q ∈ default ∅ (hooks_simple s !! e))).
Proof.
  intros Hready Hp Hclean. exists (removed plugname p s).
  split; [|split; [|split; [|split; [|split]]]].
  - apply remove_plug_eq; [done..|]. intros ev Hev. by apply tables_ready_keys.
  - rewrite removed_hooks_command. unfold discard_all. apply dom_fmap_L.
  - rewrite removed_hooks_raw. unfold discard_all. apply dom_fmap_L.
  - rewrite removed_hooks_simple. apply discard_events_dom.
  - intros other Hne. rewrite removed_plugs. by rewrite lookup_delete_ne.
  - intros q Hq. rewrite removed_hooks_command, removed_hooks_raw, removed_hooks_simple.
    split; [|split]; intros k.
    + rewrite discard_all_lookup. destruct (hooks_command s !! k); simpl; set_solver.
    + rewrite discard_all_lookup. destruct (hooks_raw s !! k); simpl; set_solver.
    + rewrite discard_events_lookup. destruct (decide _); [|done].
      destruct (hooks_simple s !! k); simpl; set_solver.
Qed.

Lemma remove_plug_keeps_rest_witness :
  exists s1,
    remove_plug cleanup_ok "Ping" kernel_demo = Ok tt s1
    /\ dom (hooks_command s1) = dom (hooks_command kernel_demo)
    /\ dom (hooks_raw s1) = dom (hooks_raw kernel_demo)
    /\ dom (hooks_simple s1) = dom (hooks_simple kernel_demo)
    /\ (forall other, other <> "Ping" -> plugs s1 !! other = plugs kernel_demo !! other)
    /\ (forall q, q <> ping0 ->
          (forall k, q ∈ default ∅ (hooks_command s1 !! k) <->
                     q ∈ default ∅ (hooks_command kernel_demo !! k))
          /\ (forall k, q ∈ default ∅ (hooks_raw s1 !! k) <->
                        q ∈ default ∅ (hooks_raw kernel_demo !! k))
          /\ (forall e, q ∈ default ∅ (hooks_simple s1 !! e) <->
                        q ∈ default ∅ (hooks_simple kernel_demo !! e))).
Proof.
  apply (remove_plug_keeps_rest cleanup_ok "Ping" ping0 kernel_demo).
  - vm_compute. reflexivity.
  - vm_compute. reflexivity.
  - reflexivity.
Defined.

(** ** Shutting down and losing the connection *)
Section ShutdownFacts.

Variable cleanup : plug -> option exn.

Lemma cleanup_each_stops before p after e s :
  (forall q, q ∈ before -> cleanup q = None) ->
  cleanup p = Some e ->
  for_each (before ++ p :: after) (call_cleanup cleanup) s =
  Raise e (with_cleanups (fun log => log ++ before ++ [p]) s).
Proof.
  intros Hbefore Hp. rewrite for_each_app, cleanup_each_eq by done.
  cbn [for_each]. munfold. rewrite call_cleanup_eq, Hp.
  destruct s. unfold with_cleanups. simpl. by rewrite <-app_assoc.
Qed.

(** X7: a cleanup step that raises stops [shutdown]: the exception
    reaches the caller, the plugs after it are not cleaned up, the
    factory is not told that the bot is shutting down and no [QUIT] is
    sent. *)
Theorem shutdown_stopped_by_cleanup msg before p after e s :
  active s = before ++ p :: after ->
  (forall q, q ∈ before -> cleanup q = None) ->
  cleanup p = Some e ->
  shutdown cleanup msg s =
    Raise e (with_cleanups (fun log => log ++ before ++ [p]) s)
  /\ shuttingdown (state_of (shutdown cleanup msg s)) = shuttingdown s
  /\ sent (state_of (shutdown cleanup msg s)) = sent s.
Proof.
  intros Hactive Hbefore Hp.
  assert (shutdown cleanup msg s =
          Raise e (with_cleanups (fun log => log ++ before ++ [p]) s)) as ->.
  { unfold shutdown. munfold.
    by rewrite Hactive, (cleanup_each_stops before p after e) by done. }
  done.
Qed.

(** X8: [connectionLost] takes an [AttributeError] out of a cleanup step
    for the sign that the bot never signed on: it returns as if nothing
    had happened, the plugs after that one are not cleaned up and
    [self.users] is not deleted. *)
Theorem connectionLost_swallows_cleanup_error before p after s :
  active s = before ++ p :: after ->
  (forall q, q ∈ before -> cleanup q = None) ->
  cleanup p = Some AttributeError ->
  connectionLost cleanup s =
    Ok tt (with_cleanups (fun log => log ++ before ++ [p]) s).
Proof.
  intros Hactive Hbefore Hp. unfold connectionLost. munfold.
  rewrite Hactive, (cleanup_each_stops before p after AttributeError) by done.
  by rewrite decide_True.
Qed.


End ShutdownFacts.

(** [self.plugs.iteritems()] yields [Pong] before [Ping] here; the
    cleanup step of [Ping] raises, the one of [Pong] returns. *)
Lemma shutdown_stopped_by_cleanup_witness :
  let cleanup := fun q => if decide (q = ping0) then Some (OtherError "disk full") else None in
  shutdown cleanup "bye" kernel_ping_pong =
    Raise (OtherError "disk full")
      (with_cleanups (fun log => log ++ [pong1] ++ [ping0]) kernel_ping_pong)
  /\ shuttingdown (state_of (shutdown cleanup "bye" kernel_ping_pong)) =
     shuttingdown kernel_ping_pong
  /\ sent (state_of (shutdown cleanup "bye" kernel_ping_pong)) = sent kernel_ping_pong.
Proof.
  intros cleanup.
  apply (shutdown_stopped_by_cleanup cleanup "bye" [pong1] ping0 []
           (OtherError "disk full") kernel_ping_pong).
  - vm_compute. reflexivity.
  - intros q ->%list_elem_of_singleton. reflexivity.
  - reflexivity.
Defined.

Lemma connectionLost_swallows_cleanup_error_witness :
  let cleanup := fun q => if decide (q = pong1) then Some AttributeError else None in
  connectionLost cleanup kernel_ping_pong =
    Ok tt (with_cleanups (fun log => log ++ [] ++ [pong1]) kernel_ping_pong).
Proof.
  intros cleanup.
  apply (connectionLost_swallows_cleanup_error cleanup [] pong1 [ping0] kernel_ping_pong).
  - vm_compute. reflexivity.
  - intros q Hq. by apply elem_of_nil in Hq.
  - reflexivity.
Defined.


(** ** [cmd_reload] returns *)

Lemma for_each_returns {A} (l : list A) (body : A -> M unit) s :
  (forall x s, exists s', body x s = Ok tt s') ->
  exists s', for_each l body s = Ok tt s'.
Proof.
  intros Hbody. revert s. induction l as [|x l IH]; intros s; [by eexists|].
  cbn [for_each]. destruct (Hbody x s) as [s1 Hs1]. destruct (IH s1) as [s2 Hs2].
  exists s2. erewrite bind_ok by exact Hs1. exact Hs2.
Qed.

Section ReloadReturns.

Variable modules : string -> option PlugClass.
Variable cleanup : plug -> option exn.

Hypothesis modules_well_declared :
  forall plugname cls, modules plugname = Some cls -> well_declared cls.
Hypothesis cleanup_returns : forall p, cleanup p = None.

Lemma for_each_raises_only {A} (e : exn) (l : list A) (body : A -> M unit) s :
  (forall x s, match body x s with Ok _ _ => True | Raise e' _ => e' = e end) ->
  match for_each l body s with Ok _ _ => True | Raise e' _ => e' = e end.
Proof.
  intros Hbody. revert s. induction l as [|x l IH]; intros s; simpl; [done|].
  munfold. pose proof (Hbody x s) as Hx. destruct (body x s); [apply IH | done].
Qed.

Lemma remove_plug_raises_only plugname s :
  match remove_plug cleanup plugname s with
  | Ok _ _ => True
  | Raise e _ => e = KeyError
  end.
Proof.
  unfold remove_plug. munfold. destruct (plugs s !! plugname) as [p|]; [|done].
  rewrite call_cleanup_eq, cleanup_returns.
  match goal with |- context [for_each ?l ?b ?s'] =>
    pose proof (for_each_raises_only KeyError l b s') as Hloop;
    destruct (for_each l b s') as [[] s2|e s2]
  end; [done|].
  apply Hloop. intros ev s3. unfold discard_simple. munfold.
  by destruct (hooks_simple s3 !! ev).
Qed.

Lemma reload_body_returns plugname s :
  exists s1,
    (try_except (remove_plug cleanup plugname) KeyError (ret tt) ≫=
       fun _ => try_except (load_plug modules plugname) ImportError (ret tt)) s = Ok tt s1.
Proof.
  munfold. pose proof (remove_plug_raises_only plugname s) as Hrm.
  assert (exists s2, (match remove_plug cleanup plugname s with
                      | Ok a s' => Ok a s'
                      | Raise e' s' =>
                          if decide (e' = KeyError) then Ok tt s' else Raise e' s'
                      end) = Ok tt s2) as [s2 ->].
  { destruct (remove_plug cleanup plugname s) as [[] s2|e s2]; [by eexists|].
    subst e. rewrite decide_True by done. by eexists. }
  destruct (modules plugname) as [cls|] eqn:Hm.
  - rewrite (load_plug_eq modules plugname cls) by eauto. by eexists.
  - rewrite load_plug_import_error by done. rewrite decide_True by done. by eexists.
Qed.

End ReloadReturns.



(** ** Dispatch over a copy and over the set itself *)

Lemma handle_core_returns p args s : is_ok (handle_core p args s) = true.
Proof.
  assert (forall argv s, is_ok (cmd_reload demo_modules cleanup_ok true argv s) = true)
    as Hreload.
  { intros argv s'.
    destruct (for_each_returns (tail argv)
                (fun plugname =>
                   try_except (remove_plug cleanup_ok plugname) KeyError (ret tt) ≫=
                   fun _ => try_except (load_plug demo_modules plugname) ImportError (ret tt))
                s') as [s1 Hs1].
    { intros plugname s2. apply reload_body_returns; [|done].
      exact demo_modules_well_declared. }
    unfold cmd_reload. by rewrite Hs1. }
  unfold handle_core. destruct args; try done.
  destruct argv as [|w rest]; [done|].
  destruct (decide (w = "reload")) as [->|Hne].
  - destruct (decide _); [apply Hreload | done].
  - repeat (match goal with
            | |- context [match ?x with _ => _ end] => destruct x; try done
            end).
Qed.

(** [Core] reloads [Core] from inside the dispatch of [reload]. *)
Lemma event_command_snapshot_witness :
  exists s1,
    event_command handle_core "alice" "#room" ["reload"; "Core"] kernel_demo =
      (map (fun p => (p, Command "alice" "#room" ["reload"; "Core"]))
         (elements ({[core5]} : gset plug)),
       Ok tt s1)
    /\ NoDup (elements ({[core5]} : gset plug)).
Proof.
  apply (event_command_snapshot handle_core "alice" "#room" "reload" ["Core"]
           {[core5]} kernel_demo).
  - vm_compute. reflexivity.
  - intros p s' _. apply handle_core_returns.
Defined.

Lemma event_raw_snapshot_witness :
  exists s1,
    event_raw handle_core "330" "irc.example.net" ["shirk"; "alice"; "al"] kernel_demo =
      (map (fun p => (p, RawLine "330" "irc.example.net" ["shirk"; "alice"; "al"]))
         (elements ({[auth4]} : gset plug)),
       Ok tt s1)
    /\ NoDup (elements ({[auth4]} : gset plug)).
Proof.
  apply (event_raw_snapshot handle_core "330" "irc.example.net" ["shirk"; "alice"; "al"]
           {[auth4]} kernel_demo).
  - vm_compute. reflexivity.
  - intros p s' _. apply handle_core_returns.
Defined.

Section CategoryFacts.

Variable handle : plug -> payload -> M unit.

Lemma iter_live_mismatch ev used l args s :
  size (default ∅ (hooks_simple s !! ev)) <> used ->
  iter_live handle ev used l args s = ([], Raise RuntimeError s).
Proof.
  intros Hne. destruct l; [rewrite iter_live_nil | rewrite iter_live_cons];
    cbv zeta; by rewrite decide_False.
Qed.

(** X13: the category events walk the set of subscribers itself.  Once
    a handler has returned leaving that set with another number of
    plugs than it had when the dispatch began (a plug subscribed to the
    event was removed, or one was loaded), the walk raises
    [RuntimeError]: the exception leaves the dispatch call and the
    subscribers not yet called are not called. *)
Theorem category_dispatch_set_changed
    ev args (callbacks : gset plug) (before : list plug) p after s s0 s1 :
  hooks_simple s !! ev = Some callbacks ->
  elements callbacks = before ++ p :: after ->
  iter_live handle ev (size callbacks) before args s =
    (map (fun q => (q, args)) before, Ok tt s0) ->
  p ∈ default ∅ (hooks_simple s0 !! ev) ->
  handle p args s0 = Ok tt s1 ->
  size (default ∅ (hooks_simple s1 !! ev)) <> size callbacks ->
  event_simple handle ev args s =
    (map (fun q => (q, args)) (before ++ [p]), Raise RuntimeError s1).
Proof.
  intros Hev Hel Hbefore Hin Hp Hsize.
  unfold event_simple. rewrite Hev, Hel, iter_live_app, Hbefore.
  rewrite iter_live_cons. cbv zeta.
  rewrite decide_True by (by eapply iter_live_ok_size).
  rewrite decide_True by done. rewrite Hp.
  rewrite iter_live_mismatch by done. by rewrite map_app.
Qed.



End CategoryFacts.

Lemma category_dispatch_set_changed_witness :
  event_simple handle_unload_self Event.chanmsg (Chanmsg "alice" "#room" "bye" false)
    kernel_demo =
    (map (fun q => (q, Chanmsg "alice" "#room" "bye" false)) ([] ++ [echo2]),
     Raise RuntimeError (removed "Echo" echo2 kernel_demo)).
Proof.
  apply (category_dispatch_set_changed handle_unload_self Event.chanmsg
           (Chanmsg "alice" "#room" "bye" false) {[echo2; logger3]} [] echo2 [logger3]
           kernel_demo kernel_demo (removed "Echo" echo2 kernel_demo)).
  - vm_compute. reflexivity.
  - vm_compute. reflexivity.
  - vm_compute. reflexivity.
  - apply (bool_decide_unpack _). vm_compute. exact I.
  - vm_compute. reflexivity.
  - apply (bool_decide_unpack _). vm_compute. exact I.
Defined.


(** ** Where a message goes *)
Section RoutingFacts.

Variable handle : plug -> payload -> M unit.







End RoutingFacts.


(** ** The words of [argv] *)





(** ** Joins *)
Section JoinFacts.

Variable handle : plug -> payload -> M unit.
Variable user_joined : string -> string -> string -> string -> D unit.

Lemma split_once_app sep (a b : string) :
  sep ∉ list_ascii_of_string a ->
  split_once sep (a +:+ String sep b) = (a, Some b).
Proof.
  induction a as [|c a IH]; simpl; intros Hsep.
  - by rewrite Ascii.eqb_refl.
  - apply not_elem_of_cons in Hsep as [Hne Hsep].
    destruct (Ascii.eqb_spec c sep) as [->|_]; [done|]. by rewrite IH.
Qed.

Lemma split_once_none sep (a : string) :
  sep ∉ list_ascii_of_string a -> split_once sep a = (a, None).
Proof.
  induction a as [|c a IH]; simpl; intros Hsep; [done|].
  apply not_elem_of_cons in Hsep as [Hne Hsep].
  destruct (Ascii.eqb_spec c sep) as [->|_]; [done|]. by rewrite IH.
Qed.

Lemma nick_of_app (a b : string) :
  "!"%char ∉ list_ascii_of_string a -> nick_of (a +:+ String "!" b) = a.
Proof.
  induction a as [|c a IH]; simpl; intros Hsep; [done|].
  apply not_elem_of_cons in Hsep as [Hne Hsep].
  destruct (Ascii.eqb_spec c "!") as [->|_]; [done|]. by rewrite IH.
Qed.

Lemma nick_of_none (a : string) :
  "!"%char ∉ list_ascii_of_string a -> nick_of a = a.
Proof.
  induction a as [|c a IH]; simpl; intros Hsep; [done|].
  apply not_elem_of_cons in Hsep as [Hne Hsep].
  destruct (Ascii.eqb_spec c "!") as [->|_]; [done|]. by rewrite IH.
Qed.

(** X18: [irc_JOIN] takes the prefix [nick!user@host] apart.  When the
    nickname is the bot's own, it asks the server who is in the channel
    and neither the user directory nor any handler is called.  When it
    is another's, the directory is told the nickname, the user name and
    the host mask, cut at the first [!] and the first [@] after it, and
    the user-joined event is then dispatched with the nickname and the
    last parameter as the channel.  A prefix of another's that has no
    [!] raises [ValueError] before the directory is told anything. *)
Theorem irc_JOIN_prefix (nick username hostmask channel : string) params s :
  "!"%char ∉ list_ascii_of_string nick ->
  "@"%char ∉ list_ascii_of_string username ->
  last params = Some channel ->
  (nick = nickname s ->
     irc_JOIN handle user_joined (nick +:+ "!" +:+ username +:+ "@" +:+ hostmask) params s =
       ([], Ok tt (with_sent (fun out => out ++ ["WHO " +:+ channel]) s)))
  /\ (nick <> nickname s ->
     irc_JOIN handle user_joined (nick +:+ "!" +:+ username +:+ "@" +:+ hostmask) params s =
       (user_joined nick username hostmask channel ≫=
          fun _ => event_userjoined handle nick channel) s)
  /\ (nick <> nickname s ->
     irc_JOIN handle user_joined nick params s = ([], Raise (OtherError "ValueError") s)).
Proof.
  intros Hnick Huser Hlast.
  change (nick +:+ "!" +:+ username +:+ "@" +:+ hostmask)
    with (nick +:+ String "!" (username +:+ String "@" hostmask)).
  split; [|split]; intros Hown; unfold irc_JOIN; rewrite Hlast.
  - rewrite nick_of_app by done. munfold. simpl.
    by rewrite decide_True.
  - rewrite nick_of_app by done. munfold. simpl.
    rewrite decide_False by done.
    unfold userJoined. rewrite !split_once_app by done.
    munfold.
    destruct (user_joined nick username hostmask channel s) as [tr [[] s'|e s']]; [|done].
    by destruct (event_userjoined handle nick channel s').
  - rewrite nick_of_none by done. munfold. simpl.
    rewrite decide_False by done.
    unfold userJoined. by rewrite split_once_none.
Qed.

(** X19: a reply to [WHO] needs six parameters: with fewer,
    [irc_RPL_WHOREPLY] raises [IndexError] before the user directory or
    a handler is called; with six or more, the directory is told the
    sixth, third, fourth and second parameter as nickname, user name,
    host mask and channel, and the user-joined event is dispatched with
    the sixth and the second. *)
Theorem irc_RPL_WHOREPLY_params prefix params s :
  (List.length params < 6 ->
     irc_RPL_WHOREPLY handle user_joined prefix params s = ([], Raise IndexError s))
  /\ (forall p0 channel username hostmask p4 nick more,
        params = [p0; channel; username; hostmask; p4; nick] ++ more ->
        irc_RPL_WHOREPLY handle user_joined prefix params s =
          (user_joined nick username hostmask channel ≫=
             fun _ => event_userjoined handle nick channel) s).
Proof.
  split.
  - intros Hlen. unfold irc_RPL_WHOREPLY, param. munfold.
    rewrite (lookup_ge_None_2 params 5) by lia. done.
  - intros p0 channel username hostmask p4 nick more ->.
    unfold irc_RPL_WHOREPLY, param. munfold. simpl.
    destruct (user_joined nick username hostmask channel s) as [tr [[] s'|e s']]; [|done].
    simpl. by destruct (event_userjoined handle nick channel s').
Qed.

End JoinFacts.

Lemma irc_JOIN_prefix_witness :
  irc_JOIN handle_nothing directory_quiet ("shirk" +:+ "!" +:+ "bot" +:+ "@" +:+ "example.net")
    ["#room"] kernel_demo =
    ([], Ok tt (with_sent (fun out => out ++ ["WHO " +:+ "#room"]) kernel_demo))
  /\ irc_JOIN handle_nothing directory_quiet
       ("alice" +:+ "!" +:+ "al" +:+ "@" +:+ "example.net") ["#room"] kernel_demo =
     (directory_quiet "alice" "al" "example.net" "#room" ≫=
        fun _ => event_userjoined handle_nothing "alice" "#room") kernel_demo
  /\ irc_JOIN handle_nothing directory_quiet "alice" ["#room"] kernel_demo =
     ([], Raise (OtherError "ValueError") kernel_demo).
Proof.
  split; [|split].
  - apply (proj1 (irc_JOIN_prefix handle_nothing directory_quiet
                    "shirk" "bot" "example.net" "#room" ["#room"] kernel_demo
                    ltac:(apply (bool_decide_unpack _); vm_compute; exact I)
                    ltac:(apply (bool_decide_unpack _); vm_compute; exact I)
                    eq_refl)).
    vm_compute. reflexivity.
  - apply (proj1 (proj2 (irc_JOIN_prefix handle_nothing directory_quiet
                    "alice" "al" "example.net" "#room" ["#room"] kernel_demo
                    ltac:(apply (bool_decide_unpack _); vm_compute; exact I)
                    ltac:(apply (bool_decide_unpack _); vm_compute; exact I)
                    eq_refl))).
    vm_compute. discriminate.
  - apply (proj2 (proj2 (irc_JOIN_prefix handle_nothing directory_quiet
                    "alice" "al" "example.net" "#room" ["#room"] kernel_demo
                    ltac:(apply (bool_decide_unpack _); vm_compute; exact I)
                    ltac:(apply (bool_decide_unpack _); vm_compute; exact I)
                    eq_refl))).
    vm_compute. discriminate.
Defined.

Lemma irc_RPL_WHOREPLY_params_witness :
  irc_RPL_WHOREPLY handle_nothing directory_quiet "irc.example.net" ["shirk"; "#room"]
    kernel_demo = ([], Raise IndexError kernel_demo)
  /\ irc_RPL_WHOREPLY handle_nothing directory_quiet "irc.example.net"
       ["shirk"; "#room"; "al"; "example.net"; "irc.example.net"; "alice"; "H"; "0 Alice"]
       kernel_demo =
     (directory_quiet "alice" "al" "example.net" "#room" ≫=
        fun _ => event_userjoined handle_nothing "alice" "#room") kernel_demo.
Proof.
  split.
  - apply (proj1 (irc_RPL_WHOREPLY_params handle_nothing directory_quiet
                    "irc.example.net" ["shirk"; "#room"] kernel_demo)).
    simpl. lia.
  - apply (proj2 (irc_RPL_WHOREPLY_params handle_nothing directory_quiet "irc.example.net"
                    ["shirk"; "#room"; "al"; "example.net"; "irc.example.net"; "alice";
                     "H"; "0 Alice"] kernel_demo)
             "shirk" "#room" "al" "example.net" "irc.example.net" "alice" ["H"; "0 Alice"]).
    reflexivity.
Defined.

(** ** Signing up with [Wiggly] *)
Module WigglyFacts.
Import Wiggly.

Lemma notify_signups by_uid uid message ops st :
  signups (state_of (notify by_uid uid message ops st)) = signups st
  /\ next_convo (state_of (notify by_uid uid message ops st)) = next_convo st.
Proof.
  revert st. induction ops as [|op ops IH]; intros st; simpl; [done|].
  destruct (by_uid op); [|apply IH]. destruct (by_uid uid); [|done].
  by destruct (IH (State (signups st) (next_convo st) (started st)
                      (notices st ++ [(s, s0 +:+ message)]))).
Qed.

Lemma approve_keeps by_nick_result operator st :
  approved_enough st -> approved_enough (state_of (approve by_nick_result operator st)).
Proof.
  intros Hinv. unfold approve.
  destruct by_nick_result as [uid|]; [|done]. destruct operator as [op|]; [|done].
  destruct (decide _) as [Hsize|Hsize]; unfold approved_enough; cbn.
  - intros uid' sg' [[<- <-]|[_ Hold]]%lookup_insert_Some Hconvo; [done|].
    by apply (Hinv uid').
  - intros uid' sg' [[<- <-]|[_ Hold]]%lookup_insert_Some Hconvo;
      [|by apply (Hinv uid')].
    destruct (signups st !! uid) as [sg|] eqn:Hsg; cbn in *.
    + etrans; [by apply (Hinv uid sg)|]. apply subseteq_size. set_solver.
    + by destruct Hconvo.
Qed.

(** X20: in every state the [Wiggly] plug can reach, a signup has a
    conversation only if it holds approvals of at least
    [approval_threshold] different operators: an operator who approves
    the same user again and again does not start the questions alone. *)
Theorem conversation_needs_approvals st :
  reachable st ->
  forall uid sg, signups st !! uid = Some sg -> is_Some (convo sg) ->
    approval_threshold <= size (approvals sg).
Proof.
  induction 1 as [|by_nick by_uid source argv st Hreach IH
                  |by_uid uid tos st Hreach IH].
  - intros uid sg Hsg. cbn in Hsg. by rewrite lookup_empty in Hsg.
  - unfold cmd_approve. destruct argv as [|cmd [|nick rest]]; [done..|].
    pose proof (approve_keeps (by_nick nick) (by_nick source) st IH) as Hst.
    destruct (approve (by_nick nick) (by_nick source) st) as [[] st'|e st']; [|done].
    cbn in *. intros uid sg [Hsg _]%map_lookup_filter_Some. by apply (Hst uid).
  - unfold convo_complete. destruct (signups st !! uid) as [sg0|] eqn:Hsg0; [|done].
    destruct (notify_signups by_uid uid
                (if tos then " has successfully registered an account."
                 else " did not agree to the TOS.") (elements (approvals sg0)) st)
      as [Hsame _].
    destruct (notify _ _ _ _ st) as [[] st'|e st']; cbn in *.
    + intros uid' sg [_ Hsg]%lookup_delete_Some. rewrite Hsame in Hsg. by apply (IH uid').
    + rewrite Hsame. exact IH.
Qed.

Lemma conversation_needs_approvals_witness :
  approval_threshold <= size (approvals (Signup {[1; 2]} (Some 0))).
Proof.
  apply (conversation_needs_approvals demo_signed_up
           ltac:(repeat constructor) 3 (Signup {[1; 2]} (Some 0))).
  - vm_compute. reflexivity.
  - by eexists.
Defined.



(** X22: a user with a first approval who sends the bot a private
    message makes [handle_private] raise: the first approval of a user
    makes a signup without a conversation, and [handle_private] looks
    the conversation of every user with a signup up. *)
Theorem private_message_before_conversation by_nick by_uid source nick msg op uid st :
  by_nick source = Some op ->
  by_nick nick = Some uid ->
  is_Some (by_uid uid) ->
  signups st !! uid = None ->
  exists st',
    cmd_approve by_nick by_uid source ["approve"; nick] st = Done tt st'
    /\ handle_private by_nick nick msg st' = Fail KeyError st'.
Proof.
  intros Hop Hnick Hknown Hnew. unfold cmd_approve, approve.
  rewrite Hop, Hnick, Hnew. cbn [approvals].
  rewrite decide_False by (rewrite size_singleton; unfold approval_threshold; lia).
  eexists. split; [reflexivity|].
  unfold handle_private, clean_up. rewrite Hnick. cbn.
  rewrite map_lookup_filter_Some_2 with (x := Signup {[op]} None);
    [done | by rewrite lookup_insert_eq | done].
Qed.

Lemma private_message_before_conversation_witness :
  exists st',
    cmd_approve demo_by_nick demo_by_uid "alice" ["approve"; "carol"] loaded = Done tt st'
    /\ handle_private demo_by_nick "carol" "hello?" st' = Fail KeyError st'.
Proof.
  apply (private_message_before_conversation demo_by_nick demo_by_uid
           "alice" "carol" "hello?" 1 3 loaded).
  - reflexivity.
  - reflexivity.
  - by eexists.
  - reflexivity.
Defined.

Lemma notify_offline by_uid uid message ops st :
  by_uid uid = None ->
  notify by_uid uid message ops st =
  if bool_decide (Exists (fun op => is_Some (by_uid op)) ops)
  then Fail AttributeError st else Done tt st.
Proof.
  intros Hgone. induction ops as [|op ops IH]; cbn [notify].
  - rewrite bool_decide_false; [done | by intros ?%Exists_nil].
  - destruct (by_uid op) as [operator|] eqn:Hop.
    + rewrite Hgone. rewrite bool_decide_true; [done|]. left. by eexists.
    + rewrite IH.
      rewrite (bool_decide_ext (Exists (fun op => is_Some (by_uid op)) ops)
                 (Exists (fun op => is_Some (by_uid op)) (op :: ops))); [done|].
      rewrite Exists_cons, Hop. split; [auto|]. by intros [[? ?]|?].
Qed.

Lemma notify_online by_uid uid user message ops st :
  by_uid uid = Some user ->
  notify by_uid uid message ops st =
  Done tt (State (signups st) (next_convo st) (started st)
             (notices st ++
              omap (fun op => (fun operator => (operator, user +:+ message)) <$> by_uid op)
                   ops)).
Proof.
  intros Huser. revert st. induction ops as [|op ops IH]; intros st; cbn [notify omap].
  - rewrite app_nil_r. by destruct st.
  - destruct (by_uid op) as [operator|] eqn:Hop; cbn; rewrite ?Hop; cbn.
    + rewrite Huser, IH. cbn. by rewrite <-app_assoc.
    + apply IH.
Qed.

(** X23: when a conversation completes, the signup is deleted and
    every approving operator that is still online gets one notice that
    names the user; but when the user who signed up has gone and an
    approving operator is still online, [convo_complete] raises
    [AttributeError], sends no notice and leaves the signup where it
    is. *)
Theorem convo_complete_outcome by_uid uid (tos : bool) sg st :
  signups st !! uid = Some sg ->
  let message := if tos then " has successfully registered an account."
                 else " did not agree to the TOS." in
  match by_uid uid with
  | Some user =>
      convo_complete by_uid uid tos st =
      Done tt (State (delete uid (signups st)) (next_convo st) (started st)
                 (notices st ++
                  omap (fun op => (fun operator => (operator, user +:+ message)) <$> by_uid op)
                       (elements (approvals sg))))
  | None =>
      (exists op, op ∈ approvals sg /\ is_Some (by_uid op)) ->
      convo_complete by_uid uid tos st = Fail AttributeError st
  end.
Proof.
  intros Hsg message. unfold convo_complete. rewrite Hsg. fold message.
  destruct (by_uid uid) as [user|] eqn:Huser.
  - by rewrite (notify_online by_uid uid user).
  - intros (op & Hop & Honline). rewrite notify_offline by done.
    rewrite bool_decide_true; [done|].
    apply Exists_exists. exists op. split; [|done]. by apply elem_of_elements.
Qed.

Lemma convo_complete_outcome_witness :
  convo_complete demo_by_uid 3 true demo_signed_up =
    Done tt (State (delete 3 (signups demo_signed_up)) (next_convo demo_signed_up)
               (started demo_signed_up)
               (notices demo_signed_up ++
                omap (fun op => (fun operator =>
                                   (operator,
                                    "carol" +:+ " has successfully registered an account."))
                                <$> demo_by_uid op)
                     (elements (approvals (Signup {[1; 2]} (Some 0))))))
  /\ convo_complete (fun uid => if decide (uid = 3) then None else demo_by_uid uid)
       3 false demo_signed_up = Fail AttributeError demo_signed_up.
Proof.
  split.
  - apply (convo_complete_outcome demo_by_uid 3 true (Signup {[1; 2]} (Some 0))
             demo_signed_up).
    vm_compute. reflexivity.
  - assert (signups demo_signed_up !! 3 = Some (Signup {[1; 2]} (Some 0))) as Hsg
      by (vm_compute; reflexivity).
    assert (1 ∈ approvals (Signup {[1; 2]} (Some 0))) as Hin
      by (apply (bool_decide_unpack _); vm_compute; exact I).
    exact (convo_complete_outcome
             (fun uid => if decide (uid = 3) then None else demo_by_uid uid)
             3 false (Signup {[1; 2]} (Some 0)) demo_signed_up Hsg
             (ex_intro _ 1 (conj Hin (mk_is_Some _ _ eq_refl)))).
Defined.

End WigglyFacts.

(** ** A CTCP action *)


